(** * Fuzzy scorer of vs/base/common/scorer: [score], [scoreFile],
    [compareFilesByScore]

    A shallow embedding of the scorer, the properties its specification
    states about it, and further properties that the code shows.

    Strings are [string]s of 8-bit characters: the scorer is specified over
    ASCII case semantics, so [toLowerCase] maps 'A'..'Z' to 'a'..'z' and
    leaves every other character alone.  Numbers that hold a score are [Z];
    indices and lengths are [nat].  [s[i]] is [String.get i s], whose [None]
    stands for JavaScript's [undefined].  The optional [cache] argument is an
    [option] of a finite map keyed by strings; since the code mutates the
    object it is handed, every function that takes the cache returns the
    cache as it stands afterwards. *)

From Stdlib Require Import ZArith List Ascii String Bool Lia Permutation Sorted.
From stdpp Require Import base option list gmap strings sorting.

Local Open Scope Z_scope.
Set Warnings "-clear-no-such-hyp".

(** ** Strings *)

(** [isUpper(code)]: [65 <= code && code <= 90]. *)
Definition isUpper (code : nat) : bool :=
  (65 <=? code)%nat && (code <=? 90)%nat.

Definition lower_char (c : ascii) : ascii :=
  if isUpper (nat_of_ascii c) then ascii_of_nat (nat_of_ascii c + 32) else c.

(** [s.toLowerCase()]. *)
Fixpoint toLowerCase (s : string) : string :=
  match s with
  | EmptyString => EmptyString
  | String c s' => String (lower_char c) (toLowerCase s')
  end.

(** [s.charCodeAt(i)]; [None] stands for [NaN]. *)
Definition charCodeAt (s : string) (i : nat) : option nat :=
  nat_of_ascii <$> String.get i s.

(** [s.indexOf(c, position)] for a one-character search string: the first
    index at or after [position] that holds [c]; [None] stands for [-1]. *)
Fixpoint indexOf (s : string) (c : ascii) (position : nat) : option nat :=
  match s with
  | EmptyString => None
  | String a s' =>
      match position with
      | O => if Ascii.eqb a c then Some O else S <$> indexOf s' c O
      | S p => S <$> indexOf s' c p
      end
  end.

(** [!s] on a string: only the empty string is falsy. *)
Definition falsy (s : string) : bool :=
  match s with EmptyString => true | _ => false end.

(** [a === b] on values that are a character or [undefined]. *)
Definition strict_eq (a b : option ascii) : bool :=
  match a, b with
  | Some x, Some y => Ascii.eqb x y
  | None, None => true
  | _, _ => false
  end.

(** ** [score] *)

(** [type Score = [number, number[]]]. *)
Definition Score : Type := Z * list nat.

Definition NO_SCORE : Score := (0, []).

Definition wordPathBoundary : list ascii :=
  ["-"; "_"; " "; "/"; "\"; "."]%char.

Section ScoreLoop.

Variables target query : string.

Let queryLen : nat := String.length query.
Let targetLower : string := toLowerCase target.
Let queryLower : string := toLowerCase query.

(** The [while (index < queryLen)] loop.  [fuel] bounds the number of
    iterations; every iteration increments [index], so [queryLen] iterations
    always suffice ([score_while_fuel]).  The result is the pair of [score]
    and [matchingPositions] when the loop is left. *)
Fixpoint score_while (fuel index startAt : nat) (score : Z)
    (matchingPositions : list nat) : Z * list nat :=
  match fuel with
  | O => (score, matchingPositions)
  | S fuel' =>
      if (index <? queryLen)%nat then
        match String.get index queryLower with
        | None => (0, matchingPositions) (* not reached: index < queryLen *)
        | Some ch =>
            match indexOf targetLower ch startAt with
            | None => (0, matchingPositions) (* score = 0; break *)
            | Some indexOf_ =>
                let matchingPositions := matchingPositions ++ [indexOf_] in
                let score := score + 1 in
                let score :=
                  if (startAt =? indexOf_)%nat && (0 <? index)%nat
                  then score + 5 else score in
                let score :=
                  if strict_eq (String.get indexOf_ target)
                               (String.get index query)
                  then score + 1 else score in
                let score :=
                  if (indexOf_ =? 0)%nat then score + 8
                  else if existsb
                            (fun w => strict_eq (Some w)
                                        (String.get (indexOf_ - 1) target))
                            wordPathBoundary
                  then score + 7
                  else if from_option isUpper false (charCodeAt target indexOf_)
                  then score + 1
                  else score in
                score_while fuel' (index + 1) (indexOf_ + 1) score
                  matchingPositions
            end
        end
      else (score, matchingPositions)
  end.

End ScoreLoop.

(** The part of [score] after the cache lookup and before the cache write:
    run the loop and build [res]. *)
Definition score_compute (target query : string) : Score :=
  let '(score, matchingPositions) :=
    score_while target query (String.length query) 0 0 0 [] in
  if 0 <? score then (score, matchingPositions) else NO_SCORE.

(** [score(target, query, cache?)].  [cache = None] is a call without the
    third argument. *)
Definition score (target query : string) (cache : option (gmap string Score))
    : Score * option (gmap string Score) :=
  if falsy target || falsy query then (NO_SCORE, cache)
  else if (String.length target <? String.length query)%nat
  then (NO_SCORE, cache)
  else
    let hash := target +:+ query in
    match cache ≫= (fun c => c !! hash) with
    | Some cached => (cached, cache)
    | None =>
        let res := score_compute target query in
        (res, <[hash := res]> <$> cache)
    end.

(** A call without a cache. *)
Definition score_nc (target query : string) : Score :=
  fst (score target query None).

(** ** [scoreFile] *)

(** [IMatch] of vs/base/common/filters: the half-open range [start, end). *)
Record IMatch : Type := { start : nat; end_ : nat }.

(** [IFileScore]; an absent [basenameMatch] or [pathMatch] is [None]. *)
Record IFileScore : Type := {
  fscore : Z;
  basenameMatch : option (list IMatch);
  pathMatch : option (list IMatch)
}.

Definition NO_FILE_SCORE : IFileScore :=
  {| fscore := 0; basenameMatch := None; pathMatch := None |}.

Record IFileAccessor (T : Type) : Type := {
  getBasename : T -> string;
  getPath : T -> string
}.
Arguments getBasename {T} _ _.
Arguments getPath {T} _ _.

Definition PATH_IDENTITY_SCORE : Z := Z.shiftl 1 18.
Definition BASENAME_PREFIX_SCORE : Z := Z.shiftl 1 17.
Definition BASENAME_SCORE_THRESHOLD : Z := Z.shiftl 1 16.

(** Modelled from the spec: [isEqual] of vs/base/common/paths is not among
    the sources.  Spec 4.2, tier 1: [query] equals [path] under
    case-insensitive path equality (the third argument asks for it). *)
Definition isEqual (pathA pathB : string) (ignoreCase : bool) : bool :=
  if ignoreCase then String.eqb (toLowerCase pathA) (toLowerCase pathB)
  else String.eqb pathA pathB.

(** Modelled from the spec: [matchesPrefix] of vs/base/common/filters is not
    among the sources.  Spec 4.2, tier 2: a case-insensitive prefix test of
    [word] against [wordToMatchAgainst]; a match is the single range
    [0, len(word)), no match is [None] (JavaScript's [null]). *)
Definition matchesPrefix (word wordToMatchAgainst : string)
    : option (list IMatch) :=
  if String.prefix (toLowerCase word) (toLowerCase wordToMatchAgainst)
  then Some [ {| start := 0; end_ := String.length word |} ]
  else None.

(** Modelled from the spec: [createMatches] of vs/base/common/filters is not
    among the sources.  Spec 3 and 4.2: adjacent matched positions coalesce
    into a single range, every other position starts a range of its own. *)
Fixpoint createMatches (position : list nat) : list IMatch :=
  match position with
  | [] => []
  | pos :: rest =>
      match createMatches rest with
      | m :: ms =>
          if (start m =? pos + 1)%nat
          then {| start := pos; end_ := end_ m |} :: ms
          else {| start := pos; end_ := (pos + 1)%nat |} :: m :: ms
      | [] => [ {| start := pos; end_ := (pos + 1)%nat |} ]
      end
  end.

(** [scoreFile(file, accessor, query, cache?)]; [file = None] is an absent
    ([null]) file. *)
Definition scoreFile {T : Type} (file : option T) (accessor : IFileAccessor T)
    (query : string) (cache : option (gmap string Score))
    : IFileScore * option (gmap string Score) :=
  match file with
  | None => (NO_FILE_SCORE, cache) (* we need a file at least *)
  | Some file =>
      let basename := getBasename accessor file in
      let path := getPath accessor file in
      if falsy basename || falsy path then (NO_FILE_SCORE, cache)
      else if isEqual query path true then
        ({| fscore := PATH_IDENTITY_SCORE;
            basenameMatch :=
              Some [ {| start := 0; end_ := String.length basename |} ];
            pathMatch :=
              Some [ {| start := 0; end_ := String.length path |} ] |},
         cache)
      else
        match matchesPrefix query basename with
        | Some prefixBasenameMatch =>
            ({| fscore := BASENAME_PREFIX_SCORE;
                basenameMatch := Some prefixBasenameMatch;
                pathMatch := None |}, cache)
        | None =>
            let '((basenameScore, basenamePositions), cache) :=
              score basename query cache in
            if negb (basenameScore =? 0) then
              ({| fscore := basenameScore + BASENAME_SCORE_THRESHOLD;
                  basenameMatch := Some (createMatches basenamePositions);
                  pathMatch := None |}, cache)
            else
              let '((pathScore, pathPositions), cache) :=
                score path query cache in
              if negb (pathScore =? 0) then
                ({| fscore := pathScore;
                    basenameMatch := None;
                    pathMatch := Some (createMatches pathPositions) |}, cache)
              else (NO_FILE_SCORE, cache)
        end
  end.

(** A call without a cache. *)
Definition scoreFile_nc {T : Type} (file : option T)
    (accessor : IFileAccessor T) (query : string) : IFileScore :=
  fst (scoreFile file accessor query None).

(** ** [compareFilesByScore] *)

Section Comparator.

(** [compareAnything] of vs/base/common/comparers is not among the sources
    and the specification does not define it: it is a parameter of the
    comparator. *)
Variable compareAnything : string -> string -> string -> Z.

Definition strlen (s : string) : Z := Z.of_nat (String.length s).

(** [compareFilesByScore(fileA, fileB, accessor, query, cache?)].  Both files
    are present, since the accessor is applied to them unconditionally.  The
    early [return]s of the source are the branches below that do not fall
    through to the next stage. *)
Definition compareFilesByScore {T : Type} (fileA fileB : T)
    (accessor : IFileAccessor T) (query : string)
    (cache : option (gmap string Score)) : Z * option (gmap string Score) :=
  let '(fsA, cache) := scoreFile (Some fileA) accessor query cache in
  let '(fsB, cache) := scoreFile (Some fileB) accessor query cache in
  let scoreA := fscore fsA in
  let scoreB := fscore fsB in
  let basenameA := getBasename accessor fileA in
  let basenameB := getBasename accessor fileB in
  let pathA := getPath accessor fileA in
  let pathB := getPath accessor fileB in
  (* 5.) at this point, scores are identical for both paths *)
  let stage5 :=
    if negb (strlen basenameA =? strlen basenameB)
    then strlen basenameA - strlen basenameB
    else if negb (strlen pathA =? strlen pathB)
    then strlen pathA - strlen pathB
    else if negb (String.eqb basenameA basenameB)
    then compareAnything basenameA basenameB query
    else compareAnything pathA pathB query in
  (* 4.) check for path scores *)
  let stage4 :=
    if negb (scoreA =? scoreB)
    then (if scoreB <? scoreA then -1 else 1)
    else stage5 in
  (* 3.) check for basename scores *)
  let stage3 :=
    if (BASENAME_SCORE_THRESHOLD <? scoreA)
       || (BASENAME_SCORE_THRESHOLD <? scoreB)
    then
      if scoreB <? BASENAME_SCORE_THRESHOLD then -1
      else if scoreA <? BASENAME_SCORE_THRESHOLD then 1
      else stage4
    else stage4 in
  (* 2.) check for basename prefix matches *)
  let stage2 :=
    if (scoreA =? BASENAME_PREFIX_SCORE) || (scoreB =? BASENAME_PREFIX_SCORE)
    then
      if negb (scoreA =? scoreB)
      then (if scoreA =? BASENAME_PREFIX_SCORE then -1 else 1)
      else if negb (strlen basenameA =? strlen basenameB)
      then strlen basenameA - strlen basenameB
      else stage3
    else stage3 in
  (* 1.) check for identity matches *)
  let stage1 :=
    if ((scoreA =? PATH_IDENTITY_SCORE) || (scoreB =? PATH_IDENTITY_SCORE))
       && negb (scoreA =? scoreB)
    then (if scoreA =? PATH_IDENTITY_SCORE then -1 else 1)
    else stage2 in
  (stage1, cache).

(** A call without a cache. *)
Definition compareFilesByScore_nc {T : Type} (fileA fileB : T)
    (accessor : IFileAccessor T) (query : string) : Z :=
  fst (compareFilesByScore fileA fileB accessor query None).

End Comparator.

(** ** A cache over a sequence of calls *)

(** The call gets past the two early [return]s. *)
Definition passes_guards (target query : string) : bool :=
  negb (falsy target || falsy query)
  && negb (String.length target <? String.length query)%nat.

(** One call [score(target, query, cache)] on the cache [c]: the result and
    the cache afterwards. *)
Definition score_with (c : gmap string Score) (call : string * string)
    : Score * gmap string Score :=
  let '(res, c') := score call.1 call.2 (Some c) in (res, default c c').

(** The cache after a sequence of calls, each a pair (target, query). *)
Definition run_calls (calls : list (string * string)) (c : gmap string Score)
    : gmap string Score :=
  foldl (fun c call => snd (score_with c call)) c calls.

(** The keys that a sequence of calls looks up or writes. *)
Definition keys_of (calls : list (string * string)) : list string :=
  (fun call => call.1 +:+ call.2)
    <$> filter (fun call => passes_guards call.1 call.2 = true) calls.

(** No earlier call that reached the cache had another (target, query) pair
    with the same concatenation as [target + query]. *)
Definition collision_free (calls : list (string * string))
    (target query : string) : Prop :=
  Forall (fun call =>
            passes_guards call.1 call.2 = true ->
            call.1 +:+ call.2 = target +:+ query ->
            call = (target, query)) calls.

(** ** The specification's notions *)

(** [drop_str n s]: [s] without its first [n] characters. *)
Fixpoint drop_str (n : nat) (s : string) : string :=
  match n, s with
  | O, _ => s
  | S n', String _ s' => drop_str n' s'
  | S _, EmptyString => EmptyString
  end.

(** [subsequence q t]: the characters of [q] occur in [t] in order, not
    necessarily contiguously (glossary, "subsequence match"). *)
Inductive subsequence : string -> string -> Prop :=
  | subsequence_nil t : subsequence EmptyString t
  | subsequence_take c q t :
      subsequence q t -> subsequence (String c q) (String c t)
  | subsequence_skip c q t :
      subsequence q t -> subsequence q (String c t).

Definition ci_subsequence (query target : string) : Prop :=
  subsequence (toLowerCase query) (toLowerCase target).

(** A decision procedure for [subsequence q t]. *)
Fixpoint subsequenceb (t q : string) : bool :=
  match t, q with
  | _, EmptyString => true
  | EmptyString, String _ _ => false
  | String a t', String c q' =>
      if Ascii.eqb a c then subsequenceb t' q' else subsequenceb t' q
  end.

(** The greedy search of spec 4.1, in the specification's words: for each
    character of the lowercased query in order, the first occurrence in the
    lowercased target at an index [>= startAt]; the matched index is
    recorded and [startAt] advances to [index + 1].  [None] when some
    character has no such occurrence. *)
Fixpoint greedy_from (targetLower queryLower : string) (startAt : nat)
    : option (list nat) :=
  match queryLower with
  | EmptyString => Some []
  | String c rest =>
      match indexOf targetLower c startAt with
      | None => None
      | Some i => cons i <$> greedy_from targetLower rest (i + 1)
      end
  end.

Definition greedy_search (target query : string) : option (list nat) :=
  greedy_from (toLowerCase target) (toLowerCase query) 0.

(** One of the word and path boundary characters. *)
Definition is_boundary (c : ascii) : bool :=
  existsb (fun w => Ascii.eqb w c) wordPathBoundary.

(** The bonus of the [k]-th matched query character, in the specification's
    words, given the list [ps] of all matched indices. *)
Definition bonus_at (target query : string) (ps : list nat) (k : nat) : Z :=
  match ps !! k with
  | None => 0
  | Some i =>
      (* character match *)
      1
      (* consecutive run: directly after the previous match, not the first *)
      + (if bool_decide ((0 < k)%nat ∧ S <$> ps !! (k - 1)%nat = Some i)
         then 5 else 0)
      (* same case *)
      + (if bool_decide (String.get i target = String.get k query)
         then 1 else 0)
      (* start of string, else start of word, else camel case *)
      + (if bool_decide (i = 0%nat) then 8
         else if from_option is_boundary false (String.get (i - 1) target)
         then 7
         else if from_option
                   (fun c => bool_decide (65 ≤ nat_of_ascii c ≤ 90)%nat)
                   false (String.get i target)
         then 1 else 0)
  end.

Definition bonus_total (target query : string) (ps : list nat) : Z :=
  foldr Z.add 0 (bonus_at target query ps <$> seq 0 (length ps)).

(** The invariant of a [Score] for a target and a query (spec 3): the score
    is not negative; a positive score comes with positions that are
    strictly ascending, one per query character, each a valid index into the
    target; a zero score comes with no positions. *)
Definition score_well_formed (target query : string) (s : Score) : Prop :=
  0 <= fst s
  /\ (0 < fst s ->
      StronglySorted Nat.lt (snd s)
      /\ length (snd s) = String.length query
      /\ Forall (fun i => (i < String.length target)%nat) (snd s))
  /\ (fst s = 0 -> snd s = []).

(** ** The tiers of [scoreFile], in the specification's words *)

(** The four tiers of spec 4.2, and no match. *)
Inductive Tier : Type :=
  | NoMatch
  | Identity
  | BasenamePrefix
  | BasenameSubsequence
  | PathSubsequence.

(** The tier that applies to a file, in the specification's words: the
    first, in priority order, of identity (query equals path without regard
    to case), basename prefix (basename starts with query without regard to
    case), basename subsequence (the basename's score is not zero) and path
    subsequence (the path's score is not zero); none when the file is absent
    or its basename or path is empty. *)
Definition tier_of {T : Type} (file : option T) (accessor : IFileAccessor T)
    (query : string) : Tier :=
  match file with
  | None => NoMatch
  | Some f =>
      let basename := getBasename accessor f in
      let path := getPath accessor f in
      if bool_decide (basename = EmptyString \/ path = EmptyString)
      then NoMatch
      else if bool_decide (toLowerCase query = toLowerCase path)
      then Identity
      else if String.prefix (toLowerCase query) (toLowerCase basename)
      then BasenamePrefix
      else if bool_decide (fst (score_nc basename query) <> 0)
      then BasenameSubsequence
      else if bool_decide (fst (score_nc path query) <> 0)
      then PathSubsequence
      else NoMatch
  end.

(** What each tier returns for a file. *)
Definition tier_result {T : Type} (tier : Tier) (f : T)
    (accessor : IFileAccessor T) (query : string) : IFileScore :=
  let basename := getBasename accessor f in
  let path := getPath accessor f in
  match tier with
  | NoMatch => NO_FILE_SCORE
  | Identity =>
      {| fscore := PATH_IDENTITY_SCORE;
         basenameMatch :=
           Some [ {| start := 0; end_ := String.length basename |} ];
         pathMatch := Some [ {| start := 0; end_ := String.length path |} ] |}
  | BasenamePrefix =>
      {| fscore := BASENAME_PREFIX_SCORE;
         basenameMatch :=
           Some [ {| start := 0; end_ := String.length query |} ];
         pathMatch := None |}
  | BasenameSubsequence =>
      {| fscore := fst (score_nc basename query) + BASENAME_SCORE_THRESHOLD;
         basenameMatch :=
           Some (createMatches (snd (score_nc basename query)));
         pathMatch := None |}
  | PathSubsequence =>
      {| fscore := fst (score_nc path query);
         basenameMatch := None;
         pathMatch := Some (createMatches (snd (score_nc path query))) |}
  end.

(** ** The stages of the comparator, in the specification's words *)

(** The tie-break on equal scores, in the specification's words (4.3,
    stage 5): shorter basename, then shorter path, then [compareAnything]
    on the basenames when they differ, and on the paths when they do not. *)
Definition tie_break (compareAnything : string -> string -> string -> Z)
    (basenameA basenameB pathA pathB query : string) : Z :=
  if negb (strlen basenameA =? strlen basenameB)
  then strlen basenameA - strlen basenameB
  else if negb (strlen pathA =? strlen pathB)
  then strlen pathA - strlen pathB
  else if negb (String.eqb basenameA basenameB)
  then compareAnything basenameA basenameB query
  else compareAnything pathA pathB query.

(** [outranks a b]: by the first four stages the score [a] sorts before the
    score [b]: an identity score before any other, then a prefix score
    before any other, then the higher score. *)
Definition outranks (a b : Z) : Prop :=
  (a = PATH_IDENTITY_SCORE /\ b <> PATH_IDENTITY_SCORE)
  \/ (a <> PATH_IDENTITY_SCORE /\ b <> PATH_IDENTITY_SCORE
      /\ a = BASENAME_PREFIX_SCORE /\ b <> BASENAME_PREFIX_SCORE)
  \/ (a <> PATH_IDENTITY_SCORE /\ b <> PATH_IDENTITY_SCORE
      /\ a <> BASENAME_PREFIX_SCORE /\ b <> BASENAME_PREFIX_SCORE
      /\ b < a).

(** The first result of a sequence of stages that distinguishes the two
    files (4.3: "each stage applied only when the prior stage does not
    distinguish"); 0 when no stage does. *)
Fixpoint first_distinguishing (stages : list Z) : Z :=
  match stages with
  | [] => 0
  | r :: rest => if r =? 0 then first_distinguishing rest else r
  end.

(** The cascade in the words of the specification (4.3) and of the claim
    about it, stage after stage; a stage that does not distinguish the files
    is 0 and gives way to the next one. *)
Definition claimed_cascade
    (compareAnything : string -> string -> string -> Z)
    (scoreA scoreB : Z) (basenameA basenameB pathA pathB query : string)
    : Z :=
  first_distinguishing
    [ (* an identity-score side wins *)
      if (scoreA =? PATH_IDENTITY_SCORE)
         && negb (scoreB =? PATH_IDENTITY_SCORE) then -1
      else if (scoreB =? PATH_IDENTITY_SCORE)
              && negb (scoreA =? PATH_IDENTITY_SCORE) then 1
      else 0;
      (* else a prefix-score side wins *)
      if (scoreA =? BASENAME_PREFIX_SCORE)
         && negb (scoreB =? BASENAME_PREFIX_SCORE) then -1
      else if (scoreB =? BASENAME_PREFIX_SCORE)
              && negb (scoreA =? BASENAME_PREFIX_SCORE) then 1
      else 0;
      (* when both sides are prefix matches the shorter basename wins *)
      if (scoreA =? BASENAME_PREFIX_SCORE)
         && (scoreB =? BASENAME_PREFIX_SCORE)
      then strlen basenameA - strlen basenameB
      else 0;
      (* else a side whose score exceeds the basename threshold beats a side
         whose score is below it *)
      if (BASENAME_SCORE_THRESHOLD <? scoreA)
         && (scoreB <? BASENAME_SCORE_THRESHOLD) then -1
      else if (BASENAME_SCORE_THRESHOLD <? scoreB)
              && (scoreA <? BASENAME_SCORE_THRESHOLD) then 1
      else 0;
      (* else the higher raw score wins *)
      if scoreB <? scoreA then -1 else if scoreA <? scoreB then 1 else 0;
      (* on equal scores the shorter basename wins *)
      strlen basenameA - strlen basenameB;
      (* then the shorter path *)
      strlen pathA - strlen pathB;
      (* then the compareAnything comparison of basenames against the query *)
      compareAnything basenameA basenameB query;
      (* then the same comparison of full paths *)
      compareAnything pathA pathB query ].

(** What the claimed cascade makes of two files. *)
Definition claimed_compare {T : Type}
    (compareAnything : string -> string -> string -> Z)
    (fileA fileB : T) (accessor : IFileAccessor T) (query : string) : Z :=
  claimed_cascade compareAnything
    (fscore (scoreFile_nc (Some fileA) accessor query))
    (fscore (scoreFile_nc (Some fileB) accessor query))
    (getBasename accessor fileA) (getBasename accessor fileB)
    (getPath accessor fileA) (getPath accessor fileB) query.

(** What makes a comparator a deterministic sort order on the items as
    [key] shows them: opposite signs on swapped arguments, transitivity of
    "sorts before" and of "sorts not after" (a strict weak ordering), and
    one sorted sequence of keys for all the permutations of a collection.
    With [key := id] the items themselves come out in one order. *)
Definition sort_order {T K : Type} (key : T -> K) (cmp : T -> T -> Z)
    : Prop :=
  (forall a b, Z.sgn (cmp a b) = - Z.sgn (cmp b a))
  /\ (forall a b c, cmp a b < 0 -> cmp b c < 0 -> cmp a c < 0)
  /\ (forall a b c, cmp a b <= 0 -> cmp b c <= 0 -> cmp a c <= 0)
  /\ (forall l1 l2,
        l1 ≡ₚ l2 ->
        Sorted (fun a b => cmp a b <= 0) l1 ->
        Sorted (fun a b => cmp a b <= 0) l2 ->
        key <$> l1 = key <$> l2).

(** The basename and the path of a file: all the comparator sees of it. *)
Definition file_key {T : Type} (accessor : IFileAccessor T) (f : T)
    : string * string :=
  (getBasename accessor f, getPath accessor f).

(** The accessor of a file that is its own key. *)
Definition key_accessor : IFileAccessor (string * string) :=
  {| getBasename := fst; getPath := snd |}.

(** ** Auxiliary definitions of the proofs *)

(** What one iteration adds to [score]. *)
Definition step_bonus (target : string) (qc : ascii)
    (index startAt indexOf_ : nat) : Z :=
  1
  + (if (startAt =? indexOf_)%nat && (0 <? index)%nat then 5 else 0)
  + (if strict_eq (String.get indexOf_ target) (Some qc) then 1 else 0)
  + (if (indexOf_ =? 0)%nat then 8
     else if existsb
               (fun w => strict_eq (Some w) (String.get (indexOf_ - 1) target))
               wordPathBoundary
     then 7
     else if from_option isUpper false (charCodeAt target indexOf_) then 1
     else 0).

(** The loop from [index] on, by recursion over the characters of the query
    that are still to be matched. *)
Fixpoint score_steps (target qs : string) (index startAt : nat) (score : Z)
    (matchingPositions : list nat) : Z * list nat :=
  match qs with
  | EmptyString => (score, matchingPositions)
  | String qc qs' =>
      match indexOf (toLowerCase target) (lower_char qc) startAt with
      | None => (0, matchingPositions)
      | Some i =>
          score_steps target qs' (index + 1) (i + 1)
            (score + step_bonus target qc index startAt i)
            (matchingPositions ++ [i])
      end
  end.

(** The sum of the bonuses of the iterations that match [l]. *)
Fixpoint steps_total (target qs : string) (index startAt : nat)
    (l : list nat) : Z :=
  match qs, l with
  | String qc qs', i :: l' =>
      step_bonus target qc index startAt i
      + steps_total target qs' (index + 1) (i + 1) l'
  | _, _ => 0
  end.

(** Stages 1 to 4 of the comparator on two scores, two basename lengths and
    the outcome [stage5] of the last stage. *)
Definition stages (scoreA scoreB lenA lenB stage5 : Z) : Z :=
  let stage4 :=
    if negb (scoreA =? scoreB)
    then (if scoreB <? scoreA then -1 else 1)
    else stage5 in
  let stage3 :=
    if (BASENAME_SCORE_THRESHOLD <? scoreA)
       || (BASENAME_SCORE_THRESHOLD <? scoreB)
    then
      if scoreB <? BASENAME_SCORE_THRESHOLD then -1
      else if scoreA <? BASENAME_SCORE_THRESHOLD then 1
      else stage4
    else stage4 in
  let stage2 :=
    if (scoreA =? BASENAME_PREFIX_SCORE) || (scoreB =? BASENAME_PREFIX_SCORE)
    then
      if negb (scoreA =? scoreB)
      then (if scoreA =? BASENAME_PREFIX_SCORE then -1 else 1)
      else if negb (lenA =? lenB)
      then lenA - lenB
      else stage3
    else stage3 in
  if ((scoreA =? PATH_IDENTITY_SCORE) || (scoreB =? PATH_IDENTITY_SCORE))
     && negb (scoreA =? scoreB)
  then (if scoreA =? PATH_IDENTITY_SCORE then -1 else 1)
  else stage2.

(** ** Fixtures: the files of the scorer's test suite and other inputs *)

(** A file given by its path; [ResourceAccessor] takes the part after the
    last separator as the basename. *)
Fixpoint basename_go (s acc : string) : string :=
  match s with
  | EmptyString => acc
  | String c s' =>
      if Ascii.eqb c "/"%char then basename_go s' EmptyString
      else basename_go s' (acc +:+ String c EmptyString)
  end.

Definition ResourceAccessor : IFileAccessor string :=
  {| getBasename := fun resource => basename_go resource EmptyString;
     getPath := fun resource => resource |}.

(** [n] copies of [s], one after the other. *)
Fixpoint string_repeat (n : nat) (s : string) : string :=
  match n with
  | O => EmptyString
  | S n' => s +:+ string_repeat n' s
  end.

(** A file with basename "b" whose path starts with [n] dots, and a file
    whose basename is [n] times "x."; each is its own (basename, path)
    pair. *)
Definition dotted_path_file (n : nat) : string * string :=
  ("b", string_repeat n "." +:+ "/b").

Definition dotted_basename_file (n : nat) : string * string :=
  (string_repeat n "x.", "/" +:+ string_repeat n "x.").

(** Two distinct files, [true] and [false], with one basename and path. *)
Definition one_path : IFileAccessor bool :=
  {| getBasename := fun _ => "f"; getPath := fun _ => "/f" |}.

(** A comparator to try the order properties on: the order of the character
    codes, whatever the query.  It stands in for [compareAnything], which is
    not among the sources. *)
Definition compare_codes (one other lookFor : string) : Z :=
  match String.compare one other with
  | Eq => 0
  | Lt => -1
  | Gt => 1
  end.

(** Three more comparators to try the order properties on, each with a
    defect of its own.  The first ignores case: it is the order of the
    character codes of the lowercased strings, so it has opposite signs on
    swapped arguments and is transitive, but it is 0 on two strings that
    differ in case only. *)
Definition compare_ignoring_case (one other lookFor : string) : Z :=
  compare_codes (toLowerCase one) (toLowerCase other) lookFor.

(** The second answers "after" whatever it is asked. *)
Definition compare_after (one other lookFor : string) : Z := 1.

(** The third is the order of the character codes, except that "c" comes
    before "a": it goes round in a circle, "a" before "b" before "c" before
    "a". *)
Definition compare_cyclic (one other lookFor : string) : Z :=
  if String.eqb one "a" && String.eqb other "c" then 1
  else if String.eqb one "c" && String.eqb other "a" then -1
  else compare_codes one other lookFor.

(** ** Notions of the further properties *)

(** [cache_for query c]: the cache holds for [query] only what [score]
    computes: an entry under the key [target + query], for a target that
    gets past the early [return]s with this query, is the score computed
    for that target. *)
Definition cache_for (query : string) (c : gmap string Score) : Prop :=
  forall target v,
    passes_guards target query = true ->
    c !! (target +:+ query) = Some v ->
    v = score_compute target query.

(** [embeds tl ql k js]: [js] lists, in strictly ascending order and from
    index [k] on, indices of [tl] that hold the characters of [ql], one
    index per character. *)
Fixpoint embeds (tl ql : string) (k : nat) (js : list nat) : bool :=
  match ql, js with
  | EmptyString, [] => true
  | String c ql', j :: js' =>
      (k <=? j)%nat && bool_decide (String.get j tl = Some c)
      && embeds tl ql' (S j) js'
  | _, _ => false
  end.

(** [js] is a way to find the query in the target as a subsequence, case
    ignored. *)
Definition embedding (target query : string) (js : list nat) : Prop :=
  embeds (toLowerCase target) (toLowerCase query) 0 js = true.

(** * Lemmas and theorems *)

(** ** Lemmas on strings *)

Lemma get_toLowerCase s i :
  String.get i (toLowerCase s) = lower_char <$> String.get i s.
Proof.
  revert i. induction s as [|a s IH]; intros [|i]; simpl; auto.
Qed.

Lemma length_toLowerCase s :
  String.length (toLowerCase s) = String.length s.
Proof. induction s; simpl; congruence. Qed.

Lemma toLowerCase_drop_str n s :
  toLowerCase (drop_str n s) = drop_str n (toLowerCase s).
Proof.
  revert s. induction n as [|n IH]; intros [|a s]; simpl; auto.
Qed.

Lemma get_Some_lt s i c :
  String.get i s = Some c -> (i < String.length s)%nat.
Proof.
  revert i. induction s as [|a s IH]; intros [|i]; simpl; try discriminate.
  - lia.
  - intros H. apply IH in H. lia.
Qed.

Lemma get_lt_Some s i :
  (i < String.length s)%nat -> exists c, String.get i s = Some c.
Proof.
  revert i. induction s as [|a s IH]; intros [|i]; simpl; try lia.
  - eauto.
  - intros H. apply IH. lia.
Qed.

Lemma drop_str_get s i c :
  String.get i s = Some c -> drop_str i s = String c (drop_str (S i) s).
Proof.
  revert i. induction s as [|a s IH]; intros [|i]; simpl; try discriminate.
  - intros [= ->]. destruct s; reflexivity.
  - intros H. rewrite (IH _ H). reflexivity.
Qed.

Lemma drop_str_ge s i :
  (String.length s <= i)%nat -> drop_str i s = EmptyString.
Proof.
  revert i. induction s as [|a s IH]; intros [|i]; simpl; try lia; auto.
  intros H. apply IH. lia.
Qed.

Lemma drop_str_length s i :
  String.length (drop_str i s) = (String.length s - i)%nat.
Proof.
  revert i. induction s as [|a s IH]; intros [|i]; simpl; auto.
Qed.

(** ** [indexOf] finds the first occurrence at or after [position] *)

Lemma indexOf_Some s c k i :
  indexOf s c k = Some i ->
  (k <= i)%nat /\ String.get i s = Some c /\
  forall j, (k <= j < i)%nat -> String.get j s <> Some c.
Proof.
  revert k i. induction s as [|a s IH]; intros k i; simpl; [discriminate|].
  destruct k as [|k].
  - destruct (Ascii.eqb a c) eqn:E.
    + intros [= <-]. apply Ascii.eqb_eq in E as ->.
      split; [lia|]. split; [reflexivity|]. intros j Hj. lia.
    + destruct (indexOf s c 0) as [i'|] eqn:E'; simpl; [|discriminate].
      intros [= <-]. destruct (IH _ _ E') as (_ & Hget & Hfirst).
      split; [lia|]. split; [exact Hget|].
      intros [|j] Hj; simpl.
      * intros [= ->]. rewrite Ascii.eqb_refl in E. discriminate.
      * apply Hfirst. lia.
  - destruct (indexOf s c k) as [i'|] eqn:E'; simpl; [|discriminate].
    intros [= <-]. destruct (IH _ _ E') as (Hle & Hget & Hfirst).
    split; [lia|]. split; [exact Hget|].
    intros [|j] Hj; [lia|]. simpl. apply Hfirst. lia.
Qed.

Lemma indexOf_None s c k :
  indexOf s c k = None ->
  forall j, (k <= j)%nat -> String.get j s <> Some c.
Proof.
  revert k. induction s as [|a s IH]; intros k; simpl.
  - intros _ j _. destruct j; discriminate.
  - destruct k as [|k].
    + destruct (Ascii.eqb a c) eqn:E; [discriminate|].
      destruct (indexOf s c 0) eqn:E'; simpl; [discriminate|].
      intros _ [|j] Hj; simpl.
      * intros [= ->]. rewrite Ascii.eqb_refl in E. discriminate.
      * apply (IH _ E'). lia.
    + destruct (indexOf s c k) eqn:E'; simpl; [discriminate|].
      intros _ [|j] Hj; [lia|]. simpl. apply (IH _ E'). lia.
Qed.

(** ** The loop and its recursion over the query agree *)

Lemma score_while_steps target query fuel :
  forall index startAt sc mp,
    (String.length query - index <= fuel)%nat ->
    score_while target query fuel index startAt sc mp
    = score_steps target (drop_str index query) index startAt sc mp.
Proof.
  induction fuel as [|fuel IH]; intros index startAt sc mp Hfuel.
  - rewrite drop_str_ge by lia. reflexivity.
  - cbn [score_while]. destruct (index <? String.length query)%nat eqn:Hlt.
    + apply Nat.ltb_lt in Hlt.
      destruct (get_lt_Some query index Hlt) as [qc Hqc].
      rewrite (drop_str_get _ _ _ Hqc). cbn [score_steps].
      rewrite get_toLowerCase, Hqc. cbn [fmap option_fmap option_map].
      destruct (indexOf (toLowerCase target) (lower_char qc) startAt)
        as [i|]; [|reflexivity].
      rewrite IH by lia. rewrite (Nat.add_1_r index).
      f_equal. unfold step_bonus.
      repeat match goal with |- context [if ?b then _ else _] =>
        destruct b end; lia.
    + apply Nat.ltb_ge in Hlt. rewrite drop_str_ge by lia. reflexivity.
Qed.

(** [queryLen] iterations are enough: more fuel changes nothing. *)
Lemma score_while_fuel target query fuel :
  (String.length query <= fuel)%nat ->
  score_while target query fuel 0 0 0 []
  = score_while target query (String.length query) 0 0 0 [].
Proof.
  intros H. rewrite !score_while_steps by lia. reflexivity.
Qed.

(** ** The greedy search decides the subsequence relation *)

Lemma subsequenceb_tail_cons t :
  (forall q c, subsequenceb t (String c q) = true -> subsequenceb t q = true)
  /\ (forall q a, subsequenceb t q = true ->
                  subsequenceb (String a t) q = true).
Proof.
  induction t as [|b t [IHtail IHcons]].
  - split.
    + intros q c H. discriminate.
    + intros [|d q] a H; [reflexivity|discriminate].
  - assert (Hcons : forall q a, subsequenceb (String b t) q = true ->
                      subsequenceb (String a (String b t)) q = true).
    { intros [|d q] a H; [reflexivity|].
      cbn [subsequenceb]. destruct (Ascii.eqb a d); [|exact H].
      cbn [subsequenceb] in H. destruct (Ascii.eqb b d).
      - apply IHcons. exact H.
      - apply IHcons. apply (IHtail _ _ H). }
    split; [|exact Hcons].
    intros q c H. cbn [subsequenceb] in H.
    destruct (Ascii.eqb b c); apply IHcons; [exact H|].
    apply (IHtail _ _ H).
Qed.

Lemma subsequenceb_spec t q : subsequenceb t q = true <-> subsequence q t.
Proof.
  split.
  - revert q. induction t as [|a t IH]; intros [|c q] H.
    + constructor.
    + discriminate.
    + constructor.
    + cbn [subsequenceb] in H. destruct (Ascii.eqb a c) eqn:E.
      * apply Ascii.eqb_eq in E as ->. constructor. apply IH, H.
      * apply subsequence_skip. apply IH, H.
  - induction 1 as [t|c q t _ IH|c q t _ IH].
    + destruct t; reflexivity.
    + cbn [subsequenceb]. rewrite Ascii.eqb_refl. exact IH.
    + apply subsequenceb_tail_cons. exact IH.
Qed.

Lemma subsequence_length q t :
  subsequence q t -> (String.length q <= String.length t)%nat.
Proof. induction 1; simpl; lia. Qed.

Lemma subsequenceb_indexOf s c q :
  forall k,
    subsequenceb (drop_str k s) (String c q)
    = match indexOf s c k with
      | Some i => subsequenceb (drop_str (S i) s) q
      | None => false
      end.
Proof.
  induction s as [|a s IH]; intros [|k]; try reflexivity.
  - cbn [drop_str subsequenceb indexOf].
    destruct (Ascii.eqb a c); [reflexivity|].
    specialize (IH 0%nat). cbn [drop_str] in IH. rewrite IH.
    destruct (indexOf s c 0); reflexivity.
  - cbn [drop_str indexOf]. rewrite (IH k).
    destruct (indexOf s c k); reflexivity.
Qed.

Lemma greedy_from_subsequenceb tl ql :
  forall k,
    is_Some (greedy_from tl ql k) <-> subsequenceb (drop_str k tl) ql = true.
Proof.
  induction ql as [|c ql IH]; intros k.
  - cbn [greedy_from]. split; [|eauto].
    intros _. destruct (drop_str k tl); reflexivity.
  - cbn [greedy_from]. rewrite subsequenceb_indexOf.
    destruct (indexOf tl c k) as [i|].
    + rewrite <- IH, Nat.add_1_r, fmap_is_Some. reflexivity.
    + split; [intros [? ?]|]; discriminate.
Qed.

Lemma greedy_search_subsequence target query :
  is_Some (greedy_search target query) <-> ci_subsequence query target.
Proof.
  unfold greedy_search, ci_subsequence.
  rewrite greedy_from_subsequenceb. apply subsequenceb_spec.
Qed.

(** The matched indices: one per query character, at or after [startAt],
    inside the target, strictly ascending. *)
Lemma greedy_from_positions tl ql :
  forall k l,
    greedy_from tl ql k = Some l ->
    length l = String.length ql
    /\ Forall (fun i => k <= i < String.length tl)%nat l
    /\ StronglySorted Nat.lt l.
Proof.
  induction ql as [|c ql IH]; intros k l; cbn [greedy_from].
  - intros [= <-]. repeat split; constructor.
  - destruct (indexOf tl c k) as [i|] eqn:Hi; [|discriminate].
    destruct (greedy_from tl ql (i + 1)) as [l'|] eqn:Hl'; [|discriminate].
    intros [= <-]. destruct (IH _ _ Hl') as (Hlen & Hall & Hsorted).
    destruct (indexOf_Some _ _ _ _ Hi) as (Hki & Hget & _).
    apply get_Some_lt in Hget.
    split; [simpl; congruence|]. split.
    + constructor; [lia|].
      eapply Forall_impl; [exact Hall|]. intros j Hj. simpl in Hj. lia.
    + constructor; [exact Hsorted|].
      eapply Forall_impl; [exact Hall|]. intros j Hj. simpl in Hj.
      unfold Nat.lt. lia.
Qed.

(** ** What the loop computes *)

Lemma score_steps_Some target qs :
  forall index startAt sc mp l,
    greedy_from (toLowerCase target) (toLowerCase qs) startAt = Some l ->
    score_steps target qs index startAt sc mp
    = (sc + steps_total target qs index startAt l, mp ++ l).
Proof.
  induction qs as [|qc qs IH]; intros index startAt sc mp l;
    cbn [toLowerCase greedy_from score_steps].
  - intros [= <-]. cbn [steps_total]. rewrite app_nil_r. f_equal. lia.
  - destruct (indexOf (toLowerCase target) (lower_char qc) startAt) as [i|];
      [|discriminate].
    destruct (greedy_from (toLowerCase target) (toLowerCase qs) (i + 1))
      as [l'|] eqn:Hl'; [|discriminate].
    intros [= <-]. rewrite (IH _ _ _ _ _ Hl'). cbn [steps_total].
    rewrite <- app_assoc. f_equal. lia.
Qed.

Lemma score_steps_None target qs :
  forall index startAt sc mp,
    greedy_from (toLowerCase target) (toLowerCase qs) startAt = None ->
    fst (score_steps target qs index startAt sc mp) = 0.
Proof.
  induction qs as [|qc qs IH]; intros index startAt sc mp;
    cbn [toLowerCase greedy_from score_steps].
  - discriminate.
  - destruct (indexOf (toLowerCase target) (lower_char qc) startAt) as [i|];
      [|reflexivity].
    destruct (greedy_from (toLowerCase target) (toLowerCase qs) (i + 1))
      as [l'|] eqn:Hl'; [discriminate|].
    intros _. apply IH. exact Hl'.
Qed.

(** Every matched character is worth at least 1 and at most 14; the first
    one at most 10, since it cannot earn the consecutive bonus. *)
Lemma step_bonus_bounds target qc index startAt i :
  (0 < index -> 0 < startAt)%nat ->
  1 <= step_bonus target qc index startAt i
       <= (if (index =? 0)%nat then 10 else 14).
Proof.
  intros Hinv. unfold step_bonus.
  assert (H5 : (startAt =? i)%nat && (0 <? index)%nat = true ->
               (i =? 0)%nat = false /\ (index =? 0)%nat = false).
  { rewrite andb_true_iff, Nat.eqb_eq, Nat.ltb_lt. intros [-> H].
    split; apply Nat.eqb_neq; lia. }
  destruct ((startAt =? i)%nat && (0 <? index)%nat).
  - destruct H5 as [-> ->]; [reflexivity|].
    repeat match goal with |- context [if ?b then _ else _] =>
      destruct b end; lia.
  - clear H5.
    repeat match goal with |- context [if ?b then _ else _] =>
      destruct b end; lia.
Qed.

Lemma steps_total_bounds target qs :
  forall index startAt l,
    length l = String.length qs ->
    (0 < index -> 0 < startAt)%nat ->
    Z.of_nat (length l) <= steps_total target qs index startAt l
    /\ steps_total target qs index startAt l
       <= 14 * Z.of_nat (length l)
          - (if (index =? 0)%nat && negb (Nat.eqb (length l) 0) then 4 else 0).
Proof.
  induction qs as [|qc qs IH]; intros index startAt [|i l] Hlen Hinv;
    try discriminate.
  - cbn [steps_total length]. rewrite andb_false_r. lia.
  - cbn [steps_total]. cbn [length String.length] in Hlen.
    pose proof (step_bonus_bounds target qc index startAt i Hinv) as Hb.
    destruct (IH (index + 1)%nat (i + 1)%nat l) as [Hlo Hhi];
      [lia | lia |].
    replace (index + 1 =? 0)%nat with false in Hhi
      by (symmetry; apply Nat.eqb_neq; lia).
    cbn [andb] in Hhi. cbn [length Nat.eqb negb]. rewrite andb_true_r.
    destruct (index =? 0)%nat; lia.
Qed.

Lemma score_compute_Some target query l :
  greedy_search target query = Some l ->
  score_compute target query
  = if 0 <? steps_total target query 0 0 l
    then (steps_total target query 0 0 l, l) else NO_SCORE.
Proof.
  intros Hl. unfold score_compute.
  rewrite score_while_steps by lia. cbn [drop_str].
  rewrite (score_steps_Some _ _ _ _ _ _ _ Hl). cbn [app].
  rewrite Z.add_0_l. reflexivity.
Qed.

Lemma score_compute_None target query :
  greedy_search target query = None ->
  score_compute target query = NO_SCORE.
Proof.
  intros Hl. unfold score_compute.
  rewrite score_while_steps by lia. cbn [drop_str].
  pose proof (score_steps_None target query 0 0 0 [] Hl) as H.
  destruct (score_steps target query 0 0 0 []) as [sc mp].
  cbn [fst] in H. subst sc. reflexivity.
Qed.

(** [score] without a cache: the two guards, then the computation. *)
Lemma score_nc_unfold target query :
  score_nc target query
  = if falsy target || falsy query then NO_SCORE
    else if (String.length target <? String.length query)%nat then NO_SCORE
    else score_compute target query.
Proof.
  unfold score_nc, score.
  destruct (falsy target || falsy query); [reflexivity|].
  destruct (String.length target <? String.length query)%nat; reflexivity.
Qed.

(** ** The loop's bonuses are the specification's bonuses *)

Lemma drop_str_String s i c r :
  drop_str i s = String c r ->
  String.get i s = Some c /\ drop_str (S i) s = r.
Proof.
  revert i. induction s as [|a s IH]; intros [|i]; cbn [drop_str String.get];
    try discriminate.
  - intros [= -> ->]. split; [reflexivity|]. destruct r; reflexivity.
  - intros H. apply IH in H. exact H.
Qed.

Lemma is_upper_code (x : option ascii) :
  from_option isUpper false (nat_of_ascii <$> x)
  = from_option (fun c => bool_decide (65 ≤ nat_of_ascii c ≤ 90)%nat) false x.
Proof.
  destruct x as [c|]; [|reflexivity]. cbn. unfold isUpper.
  case_bool_decide as H.
  - apply andb_true_iff. split; apply Nat.leb_le; lia.
  - apply andb_false_iff.
    destruct (Nat.leb_spec 65 (nat_of_ascii c)); [right|left; reflexivity].
    apply Nat.leb_gt. lia.
Qed.

Lemma is_boundary_some (x : option ascii) :
  existsb (fun w => strict_eq (Some w) x) wordPathBoundary
  = from_option is_boundary false x.
Proof. destruct x; reflexivity. Qed.

Lemma bonus_at_step target query mp l' i qc index startAt :
  length mp = index ->
  String.get index query = Some qc ->
  ((0 < index)%nat -> S <$> mp !! (index - 1)%nat = Some startAt) ->
  bonus_at target query (mp ++ i :: l') index
  = step_bonus target qc index startAt i.
Proof.
  intros Hlen Hq Hinv. unfold bonus_at, step_bonus.
  rewrite list_lookup_middle by (symmetry; exact Hlen). rewrite Hq.
  rewrite is_boundary_some. unfold charCodeAt. rewrite is_upper_code.
  f_equal; [f_equal; [f_equal|]|].
  - destruct (Nat.ltb_spec 0 index) as [Hpos|Hzero].
    + rewrite lookup_app_l by lia. rewrite (Hinv Hpos), andb_true_r.
      destruct (Nat.eqb_spec startAt i) as [->|Hne].
      * rewrite bool_decide_eq_true_2; [reflexivity|]. split; [lia|done].
      * rewrite bool_decide_eq_false_2; [reflexivity|].
        intros [_ [= ?]]. contradiction.
    + rewrite andb_false_r. rewrite bool_decide_eq_false_2; [reflexivity|].
      intros [? _]. lia.
  - destruct (String.get i target) as [a|]; cbn [strict_eq].
    + destruct (Ascii.eqb_spec a qc) as [->|Hne].
      * rewrite bool_decide_eq_true_2; done.
      * rewrite bool_decide_eq_false_2; [reflexivity|]. intros [= ?]. done.
    + rewrite bool_decide_eq_false_2; done.
  - destruct (Nat.eqb_spec i 0) as [->|Hne].
    + rewrite bool_decide_eq_true_2; done.
    + rewrite bool_decide_eq_false_2; done.
Qed.

Lemma bonus_sum_steps target query qs :
  forall index startAt mp l,
    drop_str index query = qs ->
    length mp = index ->
    ((0 < index)%nat -> S <$> mp !! (index - 1)%nat = Some startAt) ->
    greedy_from (toLowerCase target) (toLowerCase qs) startAt = Some l ->
    foldr Z.add 0 (bonus_at target query (mp ++ l) <$> seq index (length l))
    = steps_total target qs index startAt l.
Proof.
  induction qs as [|qc qs IH]; intros index startAt mp l Hdrop Hlen Hinv;
    cbn [toLowerCase greedy_from].
  - intros [= <-]. reflexivity.
  - destruct (indexOf (toLowerCase target) (lower_char qc) startAt) as [i|];
      [|discriminate].
    destruct (greedy_from (toLowerCase target) (toLowerCase qs) (i + 1))
      as [l'|] eqn:Hl'; [|discriminate].
    intros [= <-]. apply drop_str_String in Hdrop as [Hq Hdrop'].
    cbn [length seq fmap list_fmap foldr steps_total].
    rewrite (bonus_at_step _ _ _ _ _ _ _ _ Hlen Hq Hinv). f_equal.
    rewrite (cons_middle i mp l'), app_assoc, <- (Nat.add_1_r index).
    apply IH.
    + rewrite Nat.add_1_r. exact Hdrop'.
    + rewrite length_app. cbn [length]. lia.
    + intros _. replace (index + 1 - 1)%nat with (length mp) by lia.
      rewrite lookup_app_r by lia. rewrite Nat.sub_diag. cbn.
      f_equal. lia.
    + exact Hl'.
Qed.

Lemma steps_total_bonus_total target query l :
  greedy_search target query = Some l ->
  steps_total target query 0 0 l = bonus_total target query l.
Proof.
  intros Hl. unfold bonus_total. symmetry.
  apply (bonus_sum_steps target query query 0 0 [] l); try reflexivity.
  - intros H. lia.
  - exact Hl.
Qed.

(** ** [score] without a cache, by the outcome of the greedy search *)

Lemma greedy_search_length target query l :
  greedy_search target query = Some l ->
  length l = String.length query
  /\ (String.length query <= String.length target)%nat.
Proof.
  intros Hl. split.
  - destruct (greedy_from_positions _ _ _ _ Hl) as (Hlen & _).
    rewrite Hlen. apply length_toLowerCase.
  - assert (Hs : ci_subsequence query target)
      by (apply greedy_search_subsequence; eauto).
    apply subsequence_length in Hs. rewrite !length_toLowerCase in Hs.
    exact Hs.
Qed.

Lemma score_nc_Some target query l :
  query <> EmptyString ->
  greedy_search target query = Some l ->
  score_nc target query = (bonus_total target query l, l)
  /\ Z.of_nat (String.length query) <= bonus_total target query l
     <= 14 * Z.of_nat (String.length query) - 4.
Proof.
  intros Hq Hl. destruct (greedy_search_length _ _ _ Hl) as [Hlen Hle].
  rewrite <- (steps_total_bonus_total _ _ _ Hl).
  destruct (steps_total_bounds target query 0 0 l Hlen) as [Hlo Hhi];
    [lia|].
  assert (Hpos : (0 < String.length query)%nat)
    by (destruct query; [congruence|simpl; lia]).
  replace (0 =? 0)%nat with true in Hhi by reflexivity.
  replace (Nat.eqb (length l) 0) with false in Hhi
    by (symmetry; apply Nat.eqb_neq; lia).
  cbn [andb negb] in Hhi. rewrite Hlen in Hlo, Hhi.
  split; [|lia].
  rewrite score_nc_unfold.
  assert (Ht : falsy target = false).
  { destruct target; [simpl in Hle; lia|reflexivity]. }
  assert (Hq' : falsy query = false)
    by (destruct query; [congruence|reflexivity]).
  rewrite Ht, Hq'. cbn [orb].
  replace (String.length target <? String.length query)%nat with false
    by (symmetry; apply Nat.ltb_ge; exact Hle).
  rewrite (score_compute_Some _ _ _ Hl).
  replace (0 <? steps_total target query 0 0 l) with true
    by (symmetry; apply Z.ltb_lt; lia).
  reflexivity.
Qed.

Lemma score_nc_None target query :
  greedy_search target query = None ->
  score_nc target query = NO_SCORE.
Proof.
  intros Hl. rewrite score_nc_unfold.
  destruct (falsy target || falsy query); [reflexivity|].
  destruct (String.length target <? String.length query)%nat; [reflexivity|].
  apply score_compute_None, Hl.
Qed.

Lemma score_nc_empty_query target : score_nc target EmptyString = NO_SCORE.
Proof. rewrite score_nc_unfold, orb_true_r. reflexivity. Qed.

(** ** Claims about [score] without a cache *)

(** C1.  [score(target, query)] is the sentinel [(0, [])] exactly when the
    target is empty, the query is empty, or the query is not a
    case-insensitive subsequence of the target; that last condition is what
    the greedy left-to-right search decides, and it covers a target shorter
    than the query.  Any other result has a positive score, so a failed
    match never comes with positions. *)
Theorem score_sentinel_iff (target query : string) :
  (score_nc target query = NO_SCORE
   <-> target = EmptyString \/ query = EmptyString
       \/ ~ ci_subsequence query target)
  /\ (greedy_search target query = None <-> ~ ci_subsequence query target)
  /\ ((String.length target < String.length query)%nat ->
      ~ ci_subsequence query target)
  /\ (score_nc target query = NO_SCORE \/ 0 < fst (score_nc target query)).
Proof.
  assert (Hgreedy : greedy_search target query = None
                    <-> ~ ci_subsequence query target).
  { rewrite <- greedy_search_subsequence, <- eq_None_not_Some. reflexivity. }
  split; [|split; [exact Hgreedy|split]].
  - split.
    + intros Hs.
      destruct target as [|a t]; [left; reflexivity|].
      destruct query as [|c q]; [right; left; reflexivity|].
      right; right. intros Hsub.
      apply greedy_search_subsequence in Hsub as [l Hl].
      destruct (score_nc_Some (String a t) (String c q) l
                  ltac:(discriminate) Hl) as [Heq Hb].
      rewrite Heq in Hs. apply (f_equal fst) in Hs. cbn [fst NO_SCORE] in Hs.
      simpl in Hb. lia.
    + intros [-> | [-> | Hn]].
      * rewrite score_nc_unfold. reflexivity.
      * apply score_nc_empty_query.
      * apply score_nc_None, Hgreedy, Hn.
  - intros Hlt Hsub. apply subsequence_length in Hsub.
    rewrite !length_toLowerCase in Hsub. lia.
  - destruct query as [|c q]; [left; apply score_nc_empty_query|].
    destruct (greedy_search target (String c q)) as [l|] eqn:Hl.
    + right.
      destruct (score_nc_Some target (String c q) l
                  ltac:(discriminate) Hl) as [-> Hb].
      simpl in Hb |- *. lia.
    + left. apply score_nc_None, Hl.
Qed.



Lemma score_nc_well_formed (target query : string) :
  score_well_formed target query (score_nc target query).
Proof.
  unfold score_well_formed. destruct query as [|c q].
  { rewrite score_nc_empty_query. cbn. repeat split; try lia. }
  destruct (greedy_search target (String c q)) as [l|] eqn:Hl.
  - destruct (score_nc_Some target (String c q) l
                ltac:(discriminate) Hl) as [-> Hb].
    destruct (greedy_search_length _ _ _ Hl) as [Hlen _].
    destruct (greedy_from_positions _ _ _ _ Hl) as (_ & Hall & Hsorted).
    cbn [fst snd]. simpl in Hb. split; [lia|]. split.
    + intros _. split; [exact Hsorted|]. split; [exact Hlen|].
      eapply Forall_impl; [exact Hall|]. intros i Hi. simpl in Hi.
      rewrite length_toLowerCase in Hi. lia.
    + lia.
  - rewrite (score_nc_None _ _ Hl). cbn. repeat split; try lia.
Qed.

(** ** [score] with a cache *)

Lemma score_with_unfold c target query :
  score_with c (target, query)
  = if passes_guards target query then
      match c !! (target +:+ query) with
      | Some cached => (cached, c)
      | None =>
          (score_compute target query,
           <[target +:+ query := score_compute target query]> c)
      end
    else (NO_SCORE, c).
Proof.
  unfold score_with, score, passes_guards. cbn [fst snd].
  destruct (falsy target || falsy query); [reflexivity|].
  destruct (String.length target <? String.length query)%nat; [reflexivity|].
  cbn. destruct (c !! (target +:+ query)); reflexivity.
Qed.

Lemma score_nc_guards target query :
  score_nc target query
  = if passes_guards target query then score_compute target query
    else NO_SCORE.
Proof.
  rewrite score_nc_unfold. unfold passes_guards.
  destruct (falsy target || falsy query); [reflexivity|].
  destruct (String.length target <? String.length query)%nat; reflexivity.
Qed.

(** Every entry of the cache after a sequence of calls was there before or
    is the computed score of one of the calls that has the entry's key. *)
Lemma run_calls_entries calls :
  forall c k v,
    run_calls calls c !! k = Some v ->
    c !! k = Some v
    \/ exists target query,
         (target, query) ∈ calls /\ passes_guards target query = true
         /\ k = target +:+ query /\ v = score_compute target query.
Proof.
  induction calls as [|[t q] calls IH]; intros c k v; cbn [run_calls foldl].
  - auto.
  - intros H. apply IH in H as [H | (t' & q' & Hin & Hp & Hk & Hv)].
    + rewrite score_with_unfold in H.
      destruct (passes_guards t q) eqn:Hp; [|left; exact H].
      destruct (c !! (t +:+ q)) eqn:Hc; cbn [snd] in H; [left; exact H|].
      destruct (decide (t +:+ q = k)) as [<-|Hne].
      * rewrite lookup_insert_eq in H. injection H as <-.
        right. exists t, q. repeat split; [apply list_elem_of_here|exact Hp].
      * rewrite lookup_insert_ne in H by exact Hne. left. exact H.
    + right. exists t', q'. repeat split; try assumption.
      apply list_elem_of_further, Hin.
Qed.

Lemma run_calls_dom calls :
  forall c, dom (run_calls calls c) = dom c ∪ list_to_set (keys_of calls).
Proof.
  induction calls as [|[t q] calls IH]; intros c;
    cbn [run_calls foldl].
  - unfold keys_of. cbn. set_solver.
  - fold (run_calls calls (snd (score_with c (t, q)))). rewrite IH.
    rewrite score_with_unfold. unfold keys_of. rewrite filter_cons.
    cbn [fst snd]. destruct (passes_guards t q) eqn:Hp.
    + rewrite decide_True by reflexivity. rewrite fmap_cons. cbn [fst snd].
      fold (keys_of calls).
      destruct (c !! (t +:+ q)) eqn:Hc; cbn [snd].
      * assert (t +:+ q ∈ dom c) by (apply elem_of_dom; eauto). set_solver.
      * rewrite dom_insert_L. set_solver.
    + rewrite decide_False by discriminate. fold (keys_of calls).
      reflexivity.
Qed.

Lemma score_Some_cache c target query :
  score target query (Some c)
  = (fst (score_with c (target, query)),
     Some (snd (score_with c (target, query)))).
Proof.
  unfold score_with, score. cbn [fst snd].
  destruct (falsy target || falsy query); [reflexivity|].
  destruct (String.length target <? String.length query)%nat; [reflexivity|].
  cbn. destruct (c !! (target +:+ query)); reflexivity.
Qed.

Lemma passes_guards_true target query :
  passes_guards target query = true
  <-> target <> EmptyString /\ query <> EmptyString
      /\ (String.length query <= String.length target)%nat.
Proof.
  unfold passes_guards.
  rewrite andb_true_iff, !negb_true_iff, orb_false_iff, Nat.ltb_ge.
  destruct target, query; cbn [falsy]; intuition congruence.
Qed.

(** A second call with the same arguments on the cache left by the first
    returns the same result and leaves that cache as it is. *)
Lemma score_twice target query cache :
  score target query (snd (score target query cache))
  = score target query cache.
Proof.
  destruct cache as [c|].
  - rewrite (score_Some_cache c). cbn [snd].
    rewrite score_Some_cache, !score_with_unfold.
    destruct (passes_guards target query) eqn:Hp; cbn [fst snd];
      [|reflexivity].
    destruct (c !! (target +:+ query)) eqn:Hc; cbn [fst snd].
    + rewrite Hc. reflexivity.
    + rewrite lookup_insert_eq. reflexivity.
  - unfold score. destruct (falsy target || falsy query); [reflexivity|].
    destruct (String.length target <? String.length query)%nat; reflexivity.
Qed.

Lemma size_list_to_set_remove_dups (l : list string) :
  size (list_to_set l : gset string) = length (remove_dups l).
Proof.
  rewrite <- (size_list_to_set (C := gset string) (remove_dups l))
    by apply NoDup_remove_dups.
  f_equal. apply set_eq. intros x.
  rewrite !elem_of_list_to_set, elem_of_remove_dups. reflexivity.
Qed.

(** What a call returns from a cache filled by earlier calls: the score,
    computed without a cache, of some pair with the same concatenation (the
    pair itself when the cache has no entry for it). *)
Lemma run_calls_returns calls target query :
  exists target' query',
    fst (score target query (Some (run_calls calls ∅)))
    = score_nc target' query'
    /\ ((target', query') = (target, query)
        \/ ((target', query') ∈ calls
            /\ passes_guards target' query' = true
            /\ target' +:+ query' = target +:+ query)).
Proof.
  rewrite score_Some_cache, score_with_unfold.
  destruct (passes_guards target query) eqn:Hp.
  - destruct (run_calls calls ∅ !! (target +:+ query)) as [v|] eqn:Hc.
    + apply run_calls_entries in Hc
        as [Hc | (t' & q' & Hin & Hp' & Hk & ->)].
      * rewrite lookup_empty in Hc. discriminate.
      * exists t', q'. cbn [fst]. rewrite score_nc_guards, Hp'.
        split; [reflexivity|]. right. auto.
    + exists target, query. cbn [fst]. rewrite score_nc_guards, Hp. auto.
  - exists target, query. cbn [fst]. rewrite score_nc_guards, Hp. auto.
Qed.

Lemma run_calls_transparent calls target query :
  collision_free calls target query ->
  fst (score target query (Some (run_calls calls ∅))) = score_nc target query.
Proof.
  intros Hfree.
  destruct (run_calls_returns calls target query)
    as (t' & q' & -> & [Heq | (Hin & Hp & Hk)]).
  - injection Heq as -> ->. reflexivity.
  - unfold collision_free in Hfree. rewrite Forall_forall in Hfree.
    specialize (Hfree (t', q') Hin Hp Hk).
    injection Hfree as -> ->. reflexivity.
Qed.

(** ** Claims about the cache *)

(** C7, as stated, fails: after [score("aab", "a", cache)] the cache holds
    the score of that call under the key "aaba", and [score("aa", "ba",
    cache)] returns it, although without a cache the result is the
    sentinel. *)
Lemma cache_transparent_counterexample :
  fst (score "aa" "ba" (Some (run_calls [("aab", "a")] ∅)))
  <> fst (score "aa" "ba" None).
Proof. vm_compute. discriminate. Qed.

(** C7, amended.  A cache hit returns the stored value verbatim and leaves
    the cache alone.  For a cache filled by earlier calls, none of which had
    another (target, query) pair with the same concatenation
    [target + query], [score] returns with the cache what it returns
    without. *)
Theorem cache_transparent_without_collision
    (calls : list (string * string)) (target query : string) :
  (forall c v, passes_guards target query = true ->
               c !! (target +:+ query) = Some v ->
               score target query (Some c) = (v, Some c))
  /\ (collision_free calls target query ->
      fst (score target query (Some (run_calls calls ∅)))
      = fst (score target query None)).
Proof.
  split.
  - intros c v Hp Hc.
    rewrite score_Some_cache, score_with_unfold, Hp, Hc. reflexivity.
  - apply run_calls_transparent.
Qed.

Lemma cache_transparent_without_collision_witness :
  fst (score "target" "t"
         (Some (run_calls [("target", "query"); ("target", "t")] ∅)))
  = fst (score "target" "t" None).
Proof.
  apply (cache_transparent_without_collision
           [("target", "query"); ("target", "t")] "target" "t").
  apply (bool_decide_unpack _). vm_compute. exact I.
Defined.

(** C9, as stated, fails for a [Score] that comes out of the cache: after
    [score("abcd", "d", cache)] the call [score("abc", "dd", cache)] finds
    the entry stored under "abcdd" and returns it: a positive score with the
    single position 3, for a query of two characters and a target whose
    last index is 2. *)
Lemma score_invariants_counterexample :
  ~ score_well_formed "abc" "dd"
      (fst (score "abc" "dd" (Some (run_calls [("abcd", "d")] ∅)))).
Proof.
  intros (_ & H & _). vm_compute in H.
  destruct (H eq_refl) as (_ & Hlen & _). discriminate.
Qed.

(** C9, amended.  Every [Score] that [score] computes (a call without a
    cache, or with a cache filled by earlier calls none of which had another
    pair with the same concatenation) has a non-negative score; when it is
    positive the positions are strictly ascending, one per query character,
    each a valid index into the target; when it is 0 there are no
    positions.  A [Score] returned from any cache filled by earlier calls
    still has a non-negative score and strictly ascending positions, none
    when the score is 0; it is the [Score] of the pair that stored it (the
    pair of the call itself, or an earlier pair with the same concatenation
    that got past the early [return]s), and its positions are one per
    character of that pair's query and valid indices into that pair's
    target. *)
Theorem score_invariants (calls : list (string * string))
    (target query : string) :
  score_well_formed target query (fst (score target query None))
  /\ (collision_free calls target query ->
      score_well_formed target query
        (fst (score target query (Some (run_calls calls ∅)))))
  /\ (0 <= fst (fst (score target query (Some (run_calls calls ∅))))
      /\ StronglySorted Nat.lt
           (snd (fst (score target query (Some (run_calls calls ∅)))))
      /\ (fst (fst (score target query (Some (run_calls calls ∅)))) = 0 ->
          snd (fst (score target query (Some (run_calls calls ∅)))) = []))
  /\ (exists target' query',
        ((target', query') = (target, query)
         \/ ((target', query') ∈ calls
             /\ passes_guards target' query' = true
             /\ target' +:+ query' = target +:+ query))
        /\ fst (score target query (Some (run_calls calls ∅)))
           = fst (score target' query' None)
        /\ score_well_formed target' query'
             (fst (score target query (Some (run_calls calls ∅))))).
Proof.
  split; [apply score_nc_well_formed|]. split; [|split].
  - intros Hfree. rewrite (run_calls_transparent _ _ _ Hfree).
    apply score_nc_well_formed.
  - destruct (run_calls_returns calls target query) as (t' & q' & -> & _).
    destruct (score_nc_well_formed t' q') as (Hnn & Hpos & Hzero).
    split; [exact Hnn|]. split; [|exact Hzero].
    destruct (Z.eq_dec (fst (score_nc t' q')) 0) as [H0|H0].
    + rewrite (Hzero H0). constructor.
    + apply Hpos. lia.
  - destruct (run_calls_returns calls target query) as (t' & q' & Hs & Hpair).
    exists t', q'. split; [exact Hpair|]. rewrite Hs.
    split; [reflexivity|apply score_nc_well_formed].
Qed.

Lemma score_invariants_witness :
  score_well_formed "target" "t"
    (fst (score "target" "t"
            (Some (run_calls [("target", "query"); ("target", "t")] ∅)))).
Proof.
  apply (score_invariants [("target", "query"); ("target", "t")]
           "target" "t").
  apply (bool_decide_unpack _). vm_compute. exact I.
Defined.

(** C8, as stated, fails: three distinct pairs are scored with one cache,
    which ends with a single entry.  ("aab", "a") and ("aa", "ba") share the
    key "aaba", and ("a", "bc") returns before the cache is touched, its
    target being shorter than its query. *)
Lemma cache_entry_count_counterexample :
  size (run_calls [("aab", "a"); ("aa", "ba"); ("a", "bc")] ∅)
  <> length (remove_dups [("aab", "a"); ("aa", "ba"); ("a", "bc")]).
Proof. vm_compute. discriminate. Qed.

(** C8, amended.  A second call with the same arguments and the same cache
    returns the result of the first and changes nothing; and after any
    sequence of calls on an empty cache, the cache holds exactly one entry
    per distinct key [target + query] among the calls that got past the
    early returns (non-empty target and query, target not shorter than
    query). *)
Theorem cache_entry_count (calls : list (string * string)) :
  (forall target query cache,
     score target query (snd (score target query cache))
     = score target query cache)
  /\ dom (run_calls calls ∅) = list_to_set (keys_of calls)
  /\ size (run_calls calls ∅) = length (remove_dups (keys_of calls)).
Proof.
  split; [intros; apply score_twice|].
  assert (Hdom : dom (run_calls calls ∅) = list_to_set (keys_of calls)).
  { rewrite run_calls_dom, dom_empty_L. apply set_eq. intros x.
    rewrite elem_of_union, elem_of_empty. tauto. }
  split; [exact Hdom|].
  rewrite <- size_list_to_set_remove_dups, <- Hdom. symmetry.
  apply size_dom.
Qed.

(** The test "cache" of the scorer's suite: two entries after two calls. *)
Example cache_test :
  size (run_calls [("target", "query"); ("target", "t")] ∅) = 2%nat.
Proof. vm_compute. reflexivity. Qed.

(** C10, as stated, fails: "ba" is not a subsequence of "aa", both are
    non-empty and of the same length, but the cache already holds an entry
    under "aaba" (written by [score("aab", "a", cache)]); the call returns
    that entry and the cache keeps it, so the sentinel is not stored. *)
Lemma failed_search_cached_counterexample :
  ~ (forall (c : gmap string Score) (target query : string),
       target <> EmptyString -> query <> EmptyString ->
       (String.length query <= String.length target)%nat ->
       ~ ci_subsequence query target ->
       snd (score target query (Some c))
       = Some (<[target +:+ query := NO_SCORE]> c)).
Proof.
  intros H.
  specialize (H (run_calls [("aab", "a")] ∅) "aa" "ba").
  assert (Hn : ~ ci_subsequence "ba" "aa").
  { intros Hs. apply subsequenceb_spec in Hs. discriminate. }
  specialize (H ltac:(discriminate) ltac:(discriminate) ltac:(simpl; lia) Hn).
  apply (f_equal (fun o => o ≫= (fun m => m !! "aaba"))) in H.
  vm_compute in H. discriminate.
Qed.

(** C10, amended.  When target and query are non-empty, the target is at
    least as long as the query, the query is not a case-insensitive
    subsequence of the target and the cache has no entry yet under the key
    [target + query], [score] stores the sentinel under that key and returns
    it.  The early exits (empty target, empty query, target shorter than
    query) return the sentinel and leave the cache unchanged.  When the
    cache already has an entry under the key, that entry is returned,
    whatever it is, and the cache is left as it is: nothing is written. *)
Theorem failed_search_cached
    (c : gmap string Score) (target query : string) :
  (target <> EmptyString -> query <> EmptyString ->
   (String.length query <= String.length target)%nat ->
   ~ ci_subsequence query target ->
   c !! (target +:+ query) = None ->
   score target query (Some c)
   = (NO_SCORE, Some (<[target +:+ query := NO_SCORE]> c)))
  /\ (target = EmptyString \/ query = EmptyString
      \/ (String.length target < String.length query)%nat ->
      score target query (Some c) = (NO_SCORE, Some c))
  /\ (forall cached,
        target <> EmptyString -> query <> EmptyString ->
        (String.length query <= String.length target)%nat ->
        c !! (target +:+ query) = Some cached ->
        score target query (Some c) = (cached, Some c)).
Proof.
  split; [|split].
  3: { intros cached Ht Hq Hlen Hc.
       assert (Hp : passes_guards target query = true)
         by (apply passes_guards_true; auto).
       rewrite score_Some_cache, score_with_unfold, Hp, Hc. reflexivity. }
  - intros Ht Hq Hlen Hn Hc.
    assert (Hp : passes_guards target query = true)
      by (apply passes_guards_true; auto).
    rewrite score_Some_cache, score_with_unfold, Hp, Hc. cbn [fst snd].
    assert (Hs : score_compute target query = NO_SCORE).
    { apply score_compute_None.
      destruct (greedy_search target query) eqn:Hg; [|reflexivity].
      exfalso. apply Hn, greedy_search_subsequence. eauto. }
    rewrite Hs. reflexivity.
  - intros Hexit.
    assert (Hp : passes_guards target query = false).
    { destruct (passes_guards target query) eqn:Hp; [|reflexivity].
      apply passes_guards_true in Hp as (Ht & Hq & Hlen).
      destruct Hexit as [?|[?|?]]; [contradiction|contradiction|lia]. }
    rewrite score_Some_cache, score_with_unfold, Hp. reflexivity.
Qed.

Lemma failed_search_cached_witness :
  score "abc" "d" (Some ∅) = (NO_SCORE, Some (<["abcd" := NO_SCORE]> ∅)).
Proof.
  apply (proj1 (failed_search_cached ∅ "abc" "d"));
    [discriminate | discriminate | simpl; lia | | reflexivity].
  intros Hs. apply subsequenceb_spec in Hs. discriminate.
Defined.

(** ** [scoreFile] returns what the applicable tier returns *)

Lemma score_None target query :
  score target query None = (score_nc target query, None).
Proof.
  unfold score_nc, score.
  destruct (falsy target || falsy query); [reflexivity|].
  destruct (String.length target <? String.length query)%nat; reflexivity.
Qed.

Lemma falsy_or basename path :
  falsy basename || falsy path
  = bool_decide (basename = EmptyString \/ path = EmptyString).
Proof.
  destruct basename, path; cbn [falsy orb]; symmetry;
    first [ apply bool_decide_eq_true_2; auto
          | apply bool_decide_eq_false_2; intros [?|?]; discriminate ].
Qed.

Lemma scoreFile_nc_tier {T : Type} (f : T) (accessor : IFileAccessor T)
    (query : string) :
  scoreFile_nc (Some f) accessor query
  = tier_result (tier_of (Some f) accessor query) f accessor query.
Proof.
  unfold scoreFile_nc, scoreFile, tier_of, tier_result, isEqual,
    matchesPrefix.
  rewrite falsy_or.
  destruct (bool_decide (_ \/ _)); [reflexivity|].
  destruct (String.eqb_spec (toLowerCase query)
              (toLowerCase (getPath accessor f))) as [He|He].
  { rewrite bool_decide_eq_true_2 by exact He. reflexivity. }
  rewrite bool_decide_eq_false_2 by exact He.
  destruct (String.prefix _ _); [reflexivity|].
  rewrite !score_None.
  destruct (score_nc (getBasename accessor f) query) as [bs bp].
  cbn [fst snd].
  destruct (Z.eqb_spec bs 0) as [Hb|Hb]; cbn [negb].
  - rewrite bool_decide_eq_false_2 by (intros H; apply H, Hb).
    destruct (score_nc (getPath accessor f) query) as [ps pp].
    cbn [fst snd].
    destruct (Z.eqb_spec ps 0) as [Hp|Hp]; cbn [negb].
    + rewrite bool_decide_eq_false_2 by (intros H; apply H, Hp).
      reflexivity.
    + rewrite bool_decide_eq_true_2 by exact Hp. reflexivity.
  - rewrite bool_decide_eq_true_2 by exact Hb. reflexivity.
Qed.

(** C3.  [scoreFile] returns the sentinel for an absent file and otherwise
    what the tier that applies returns, the tiers being tried in the order
    identity, basename prefix, basename subsequence, path subsequence:
    [PATH_IDENTITY_SCORE] with the full range of basename and of path;
    [BASENAME_PREFIX_SCORE] with the one basename range [0, len(query));
    the basename's score plus [BASENAME_SCORE_THRESHOLD] with the basename
    ranges; the path's raw score with the path ranges; the sentinel when no
    tier applies or basename or path is empty. *)
Theorem scoreFile_tiers {T : Type} (accessor : IFileAccessor T)
    (query : string) :
  scoreFile_nc None accessor query = NO_FILE_SCORE
  /\ forall f : T,
       scoreFile_nc (Some f) accessor query
       = tier_result (tier_of (Some f) accessor query) f accessor query.
Proof.
  split; [reflexivity|]. intros f. apply scoreFile_nc_tier.
Qed.

(** The tiers on the file of the scorer's test suite. *)
Example tier_of_test :
  let file := Some "/xyz/some/path/someFile123.txt" in
  tier_of file ResourceAccessor "/XYZ/some/path/someFile123.txt" = Identity
  /\ tier_of file ResourceAccessor "som" = BasenamePrefix
  /\ tier_of file ResourceAccessor "of" = BasenameSubsequence
  /\ tier_of file ResourceAccessor "xyz123" = PathSubsequence
  /\ tier_of file ResourceAccessor "987" = NoMatch.
Proof. vm_compute. repeat split. Qed.

(** ** The comparator, stage by stage *)

Lemma scoreFile_None {T : Type} (file : option T)
    (accessor : IFileAccessor T) (query : string) :
  scoreFile file accessor query None
  = (scoreFile_nc file accessor query, None).
Proof.
  unfold scoreFile_nc, scoreFile. destruct file as [f|]; [|reflexivity].
  destruct (falsy _ || falsy _); [reflexivity|].
  destruct (isEqual _ _ _); [reflexivity|].
  destruct (matchesPrefix _ _); [reflexivity|].
  rewrite !score_None.
  destruct (score_nc (getBasename accessor f) query) as [bs bp].
  destruct (negb (bs =? 0)); [reflexivity|].
  destruct (score_nc (getPath accessor f) query) as [ps pp].
  destruct (negb (ps =? 0)); reflexivity.
Qed.

Lemma stages_cases (sa sb la lb t : Z) :
  (la <> lb -> t = la - lb) ->
  (outranks sa sb /\ stages sa sb la lb t = -1)
  \/ (outranks sb sa /\ stages sa sb la lb t = 1)
  \/ (sa = sb /\ stages sa sb la lb t = t).
Proof.
  intros Ht. remember (stages sa sb la lb t) as r eqn:Hr.
  unfold stages, outranks in *. cbv zeta in Hr.
  change PATH_IDENTITY_SCORE with 262144 in *.
  change BASENAME_PREFIX_SCORE with 131072 in *.
  change BASENAME_SCORE_THRESHOLD with 65536 in *.
  repeat match type of Hr with
    | _ = (if ?c then _ else _) =>
        let E := fresh "E" in
        destruct c eqn:E;
        rewrite ?andb_true_iff, ?andb_false_iff, ?orb_true_iff,
          ?orb_false_iff, ?negb_true_iff, ?negb_false_iff, ?Z.eqb_eq,
          ?Z.eqb_neq, ?Z.ltb_lt, ?Z.ltb_ge in E
    end;
    subst r;
    first [ left; split; [|reflexivity]; lia
          | right; left; split; [|reflexivity]; lia
          | right; right; split; lia ].
Qed.

Lemma compare_stages {T : Type}
    (compareAnything : string -> string -> string -> Z)
    (accessor : IFileAccessor T) (query : string) (a b : T) :
  compareFilesByScore_nc compareAnything a b accessor query
  = stages (fscore (scoreFile_nc (Some a) accessor query))
      (fscore (scoreFile_nc (Some b) accessor query))
      (strlen (getBasename accessor a)) (strlen (getBasename accessor b))
      (tie_break compareAnything (getBasename accessor a)
         (getBasename accessor b) (getPath accessor a) (getPath accessor b)
         query).
Proof.
  unfold compareFilesByScore_nc, compareFilesByScore.
  rewrite !scoreFile_None. reflexivity.
Qed.

(** The comparator is decided by the scores when one outranks the other,
    and by the tie-break when the scores are equal. *)
Lemma compare_cases {T : Type}
    (compareAnything : string -> string -> string -> Z)
    (accessor : IFileAccessor T) (query : string) (a b : T) :
  (outranks (fscore (scoreFile_nc (Some a) accessor query))
     (fscore (scoreFile_nc (Some b) accessor query))
   /\ compareFilesByScore_nc compareAnything a b accessor query = -1)
  \/ (outranks (fscore (scoreFile_nc (Some b) accessor query))
        (fscore (scoreFile_nc (Some a) accessor query))
      /\ compareFilesByScore_nc compareAnything a b accessor query = 1)
  \/ (fscore (scoreFile_nc (Some a) accessor query)
      = fscore (scoreFile_nc (Some b) accessor query)
      /\ compareFilesByScore_nc compareAnything a b accessor query
         = tie_break compareAnything (getBasename accessor a)
             (getBasename accessor b) (getPath accessor a)
             (getPath accessor b) query).
Proof.
  rewrite compare_stages. apply stages_cases.
  intros Hne. unfold tie_break.
  apply Z.eqb_neq in Hne. rewrite Hne. reflexivity.
Qed.

Lemma tie_break_spec (compareAnything : string -> string -> string -> Z)
    (bA bB pA pB q : string) :
  (strlen bA <> strlen bB ->
   tie_break compareAnything bA bB pA pB q = strlen bA - strlen bB)
  /\ (strlen bA = strlen bB -> strlen pA <> strlen pB ->
      tie_break compareAnything bA bB pA pB q = strlen pA - strlen pB)
  /\ (strlen bA = strlen bB -> strlen pA = strlen pB -> bA <> bB ->
      tie_break compareAnything bA bB pA pB q = compareAnything bA bB q)
  /\ (strlen bA = strlen bB -> strlen pA = strlen pB -> bA = bB ->
      tie_break compareAnything bA bB pA pB q = compareAnything pA pB q).
Proof.
  unfold tie_break.
  destruct (Z.eqb_spec (strlen bA) (strlen bB)),
    (Z.eqb_spec (strlen pA) (strlen pB)), (String.eqb_spec bA bB);
    cbn [negb]; repeat split; intros; congruence.
Qed.

Lemma outranks_irrefl (s : Z) : ~ outranks s s.
Proof. unfold outranks. lia. Qed.

Lemma outranks_neq (a b : Z) : outranks a b -> a <> b.
Proof. intros Ho ->. exact (outranks_irrefl _ Ho). Qed.

Lemma outranks_asym (a b : Z) : outranks a b -> ~ outranks b a.
Proof. unfold outranks. lia. Qed.

Lemma outranks_trans (a b c : Z) : outranks a b -> outranks b c -> outranks a c.
Proof.
  unfold outranks.
  change PATH_IDENTITY_SCORE with 262144.
  change BASENAME_PREFIX_SCORE with 131072. lia.
Qed.

Lemma outranks_total (a b : Z) : outranks a b \/ a = b \/ outranks b a.
Proof.
  unfold outranks.
  change PATH_IDENTITY_SCORE with 262144.
  change BASENAME_PREFIX_SCORE with 131072. lia.
Qed.

(** ** Claims about [compareFilesByScore] *)

(** C4, as stated, fails in its last two stages.  The claimed cascade goes
    on to the paths when the comparison of the basenames does not
    distinguish the files; the code goes on to the paths only when the
    basenames are the same string, and otherwise returns what
    [compareAnything] says of the basenames, 0 included.  With a
    [compareAnything] that ignores case, the query "ab" and the files
    "/z/AB" and "/a/ab" (both basename prefix matches, basenames and paths
    of equal length) the code returns 0, where the claimed cascade compares
    the paths and returns 1. *)
Lemma compare_cascade_counterexample :
  compareFilesByScore_nc compare_ignoring_case ("AB", "/z/AB") ("ab", "/a/ab")
    key_accessor "ab" = 0
  /\ claimed_compare compare_ignoring_case ("AB", "/z/AB") ("ab", "/a/ab")
       key_accessor "ab" = 1
  /\ compareFilesByScore_nc compare_ignoring_case ("AB", "/z/AB")
       ("ab", "/a/ab") key_accessor "ab"
     <> claimed_compare compare_ignoring_case ("AB", "/z/AB") ("ab", "/a/ab")
          key_accessor "ab".
Proof. vm_compute. repeat split; discriminate. Qed.

(** C4, amended.  The cascade of [compareFilesByScore], stage by stage: a
    side with the identity score wins; else a side with the prefix score
    wins, and of two prefix matches the one with the shorter basename; else
    a score above the basename threshold beats one below it; else the
    higher score wins; and on equal scores the shorter basename wins, then
    the shorter path; then, when the basenames are different strings, the
    result is what [compareAnything] says of the basenames, whatever that
    is, and only when the basenames are the same string it is what
    [compareAnything] says of the paths.  A negative result sorts [fileA]
    first; a length difference [lenA - lenB] is negative exactly when A is
    shorter. *)
Theorem compare_cascade {T : Type}
    (compareAnything : string -> string -> string -> Z)
    (fileA fileB : T) (accessor : IFileAccessor T) (query : string) :
  let scoreA := fscore (scoreFile_nc (Some fileA) accessor query) in
  let scoreB := fscore (scoreFile_nc (Some fileB) accessor query) in
  let basenameA := getBasename accessor fileA in
  let basenameB := getBasename accessor fileB in
  let pathA := getPath accessor fileA in
  let pathB := getPath accessor fileB in
  let generic (s : Z) := s <> PATH_IDENTITY_SCORE /\ s <> BASENAME_PREFIX_SCORE in
  let res := compareFilesByScore_nc compareAnything fileA fileB accessor query in
  (* 1.) identity *)
  (scoreA = PATH_IDENTITY_SCORE -> scoreB <> PATH_IDENTITY_SCORE -> res = -1)
  /\ (scoreB = PATH_IDENTITY_SCORE -> scoreA <> PATH_IDENTITY_SCORE -> res = 1)
  (* 2.) basename prefix *)
  /\ (scoreA = BASENAME_PREFIX_SCORE -> generic scoreB -> res = -1)
  /\ (scoreB = BASENAME_PREFIX_SCORE -> generic scoreA -> res = 1)
  /\ (scoreA = BASENAME_PREFIX_SCORE -> scoreB = BASENAME_PREFIX_SCORE ->
      strlen basenameA <> strlen basenameB ->
      res = strlen basenameA - strlen basenameB)
  (* 3.) basename scores *)
  /\ (generic scoreA -> generic scoreB ->
      BASENAME_SCORE_THRESHOLD < scoreA -> scoreB < BASENAME_SCORE_THRESHOLD ->
      res = -1)
  /\ (generic scoreA -> generic scoreB ->
      BASENAME_SCORE_THRESHOLD < scoreB -> scoreA < BASENAME_SCORE_THRESHOLD ->
      res = 1)
  (* 4.) path scores *)
  /\ (generic scoreA -> generic scoreB -> scoreB < scoreA -> res = -1)
  /\ (generic scoreA -> generic scoreB -> scoreA < scoreB -> res = 1)
  (* 5.) equal scores *)
  /\ (scoreA = scoreB -> strlen basenameA <> strlen basenameB ->
      res = strlen basenameA - strlen basenameB)
  /\ (scoreA = scoreB -> strlen basenameA = strlen basenameB ->
      strlen pathA <> strlen pathB -> res = strlen pathA - strlen pathB)
  /\ (scoreA = scoreB -> strlen basenameA = strlen basenameB ->
      strlen pathA = strlen pathB -> basenameA <> basenameB ->
      res = compareAnything basenameA basenameB query)
  /\ (scoreA = scoreB -> strlen basenameA = strlen basenameB ->
      strlen pathA = strlen pathB -> basenameA = basenameB ->
      res = compareAnything pathA pathB query).
Proof.
  intros scoreA scoreB basenameA basenameB pathA pathB generic res.
  pose proof (compare_cases compareAnything accessor query fileA fileB)
    as Hcases.
  cbv zeta in Hcases.
  fold scoreA scoreB basenameA basenameB pathA pathB res in Hcases.
  destruct (tie_break_spec compareAnything basenameA basenameB pathA pathB
              query) as (Ht1 & Ht2 & Ht3 & Ht4).
  pose proof (outranks_irrefl scoreA) as Hirr.
  assert (Hout : outranks scoreA scoreB <->
                 (scoreA = PATH_IDENTITY_SCORE /\ scoreB <> PATH_IDENTITY_SCORE)
                 \/ (scoreA = BASENAME_PREFIX_SCORE /\ generic scoreB)
                 \/ (generic scoreA /\ generic scoreB /\ scoreB < scoreA)).
  { unfold outranks, generic.
    change PATH_IDENTITY_SCORE with 262144.
    change BASENAME_PREFIX_SCORE with 131072. lia. }
  assert (Hout' : outranks scoreB scoreA <->
                 (scoreB = PATH_IDENTITY_SCORE /\ scoreA <> PATH_IDENTITY_SCORE)
                 \/ (scoreB = BASENAME_PREFIX_SCORE /\ generic scoreA)
                 \/ (generic scoreA /\ generic scoreB /\ scoreA < scoreB)).
  { unfold outranks, generic.
    change PATH_IDENTITY_SCORE with 262144.
    change BASENAME_PREFIX_SCORE with 131072. lia. }
  assert (Hwin : outranks scoreA scoreB -> res = -1).
  { intros Ho. destruct Hcases as [[_ Hr]|[[Ho' _]|[He _]]]; [exact Hr| |].
    - destruct (outranks_asym _ _ Ho Ho').
    - destruct (outranks_neq _ _ Ho He). }
  assert (Hlose : outranks scoreB scoreA -> res = 1).
  { intros Ho. destruct Hcases as [[Ho' _]|[[_ Hr]|[He _]]]; [|exact Hr|].
    - destruct (outranks_asym _ _ Ho Ho').
    - destruct (outranks_neq _ _ Ho (eq_sym He)). }
  assert (Htie : scoreA = scoreB ->
                 res = tie_break compareAnything basenameA basenameB pathA
                         pathB query).
  { intros He. destruct Hcases as [[Ho _]|[[Ho _]|[_ Hr]]]; [| |exact Hr].
    - destruct (outranks_neq _ _ Ho He).
    - destruct (outranks_neq _ _ Ho (eq_sym He)). }
  change BASENAME_SCORE_THRESHOLD with 65536.
  repeat split; intros;
    first [ apply Hwin, Hout; unfold generic in *; lia
          | apply Hlose, Hout'; unfold generic in *; lia
          | rewrite Htie by congruence; auto ].
Qed.

(** ** The comparator as an order *)

Lemma sgn_opp_iff (x y : Z) :
  Z.sgn x = - Z.sgn y
  <-> (x < 0 <-> 0 < y) /\ (x = 0 <-> y = 0) /\ (0 < x <-> y < 0).
Proof. destruct x, y; cbn; split; intros; try discriminate; lia. Qed.

Lemma compare_key {T : Type}
    (compareAnything : string -> string -> string -> Z)
    (accessor : IFileAccessor T) (query : string) (a b : T) :
  compareFilesByScore_nc compareAnything a b accessor query
  = compareFilesByScore_nc compareAnything (file_key accessor a)
      (file_key accessor b) key_accessor query.
Proof. reflexivity. Qed.

Lemma file_key_key_accessor (k : string * string) :
  file_key key_accessor k = k.
Proof. destruct k; reflexivity. Qed.

Section ComparatorOrder.

Context {T : Type}.
Variable compareAnything : string -> string -> string -> Z.
Variable accessor : IFileAccessor T.
Variable query : string.

(** What the order properties of the comparator rest on: for the query at
    hand, [compareAnything] has opposite signs on swapped arguments, is
    transitive, and is zero on equal strings only. *)
Hypothesis compareAnything_sign :
  forall x y,
    Z.sgn (compareAnything x y query) = - Z.sgn (compareAnything y x query).
Hypothesis compareAnything_trans :
  forall x y z,
    compareAnything x y query <= 0 -> compareAnything y z query <= 0 ->
    compareAnything x z query <= 0.
Hypothesis compareAnything_zero :
  forall x y, compareAnything x y query = 0 -> x = y.

Local Abbreviation cmp a b :=
  (compareFilesByScore_nc compareAnything a b accessor query).
Local Abbreviation tie a b :=
  (tie_break compareAnything (getBasename accessor a) (getBasename accessor b)
     (getPath accessor a) (getPath accessor b) query).

Lemma compareAnything_refl x : compareAnything x x query = 0.
Proof.
  pose proof (compareAnything_sign x x) as H.
  apply sgn_opp_iff in H. lia.
Qed.

Lemma tie_sign (a b : T) : Z.sgn (tie a b) = - Z.sgn (tie b a).
Proof.
  destruct (tie_break_spec compareAnything (getBasename accessor a)
              (getBasename accessor b) (getPath accessor a)
              (getPath accessor b) query) as (H1 & H2 & H3 & H4).
  destruct (tie_break_spec compareAnything (getBasename accessor b)
              (getBasename accessor a) (getPath accessor b)
              (getPath accessor a) query) as (G1 & G2 & G3 & G4).
  destruct (Z.eq_dec (strlen (getBasename accessor a))
              (strlen (getBasename accessor b))) as [Eb|Eb].
  2: { rewrite H1, G1 by congruence. apply sgn_opp_iff. lia. }
  destruct (Z.eq_dec (strlen (getPath accessor a))
              (strlen (getPath accessor b))) as [Ep|Ep].
  2: { rewrite H2, G2 by congruence. apply sgn_opp_iff. lia. }
  destruct (String.eqb_spec (getBasename accessor a) (getBasename accessor b))
    as [E|E].
  - rewrite H4, G4 by congruence. apply compareAnything_sign.
  - rewrite H3, G3 by congruence. apply compareAnything_sign.
Qed.

Lemma tie_zero (a b : T) :
  tie a b = 0 <-> file_key accessor a = file_key accessor b.
Proof.
  unfold file_key.
  destruct (tie_break_spec compareAnything (getBasename accessor a)
              (getBasename accessor b) (getPath accessor a)
              (getPath accessor b) query) as (H1 & H2 & H3 & H4).
  split.
  - intros H0.
    destruct (Z.eq_dec (strlen (getBasename accessor a))
                (strlen (getBasename accessor b))) as [Eb|Eb].
    2: { rewrite H1 in H0 by exact Eb. lia. }
    destruct (Z.eq_dec (strlen (getPath accessor a))
                (strlen (getPath accessor b))) as [Ep|Ep].
    2: { rewrite H2 in H0 by assumption. lia. }
    destruct (String.eqb_spec (getBasename accessor a)
                (getBasename accessor b)) as [E|E].
    + rewrite H4 in H0 by assumption.
      apply compareAnything_zero in H0. congruence.
    + rewrite H3 in H0 by assumption.
      apply compareAnything_zero in H0. contradiction.
  - intros [= Eb Ep]. rewrite H4 by congruence. rewrite Ep.
    apply compareAnything_refl.
Qed.

Lemma tie_trans (a b c : T) :
  tie a b <= 0 -> tie b c <= 0 -> tie a c <= 0.
Proof.
  destruct (tie_break_spec compareAnything (getBasename accessor a)
              (getBasename accessor b) (getPath accessor a)
              (getPath accessor b) query) as (H1 & H2 & H3 & H4).
  destruct (tie_break_spec compareAnything (getBasename accessor b)
              (getBasename accessor c) (getPath accessor b)
              (getPath accessor c) query) as (G1 & G2 & G3 & G4).
  destruct (tie_break_spec compareAnything (getBasename accessor a)
              (getBasename accessor c) (getPath accessor a)
              (getPath accessor c) query) as (K1 & K2 & K3 & K4).
  set (ba := getBasename accessor a) in *.
  set (bb := getBasename accessor b) in *.
  set (bc := getBasename accessor c) in *.
  set (pa := getPath accessor a) in *.
  set (pb := getPath accessor b) in *.
  set (pc := getPath accessor c) in *.
  intros Hab Hbc.
  destruct (Z.eq_dec (strlen ba) (strlen bb)) as [Eab|Eab].
  2: { rewrite H1 in Hab by exact Eab.
       destruct (Z.eq_dec (strlen bb) (strlen bc)) as [Ebc|Ebc].
       - rewrite K1 by lia. lia.
       - rewrite G1 in Hbc by exact Ebc. rewrite K1 by lia. lia. }
  destruct (Z.eq_dec (strlen bb) (strlen bc)) as [Ebc|Ebc].
  2: { rewrite G1 in Hbc by exact Ebc. rewrite K1 by lia. lia. }
  destruct (Z.eq_dec (strlen pa) (strlen pb)) as [Fab|Fab].
  2: { rewrite H2 in Hab by assumption.
       destruct (Z.eq_dec (strlen pb) (strlen pc)) as [Fbc|Fbc].
       - rewrite K2 by lia. lia.
       - rewrite G2 in Hbc by assumption. rewrite K2 by lia. lia. }
  destruct (Z.eq_dec (strlen pb) (strlen pc)) as [Fbc|Fbc].
  2: { rewrite G2 in Hbc by assumption. rewrite K2 by lia. lia. }
  assert (Eac : strlen ba = strlen bc) by lia.
  assert (Fac : strlen pa = strlen pc) by lia.
  destruct (String.eqb_spec ba bb) as [Xab|Xab],
    (String.eqb_spec bb bc) as [Xbc|Xbc].
  - rewrite H4 in Hab by assumption. rewrite G4 in Hbc by assumption.
    rewrite K4 by congruence. eapply compareAnything_trans; eassumption.
  - rewrite G3 in Hbc by assumption.
    rewrite K3 by congruence. rewrite Xab. exact Hbc.
  - rewrite H3 in Hab by assumption.
    rewrite K3 by congruence. rewrite <- Xbc. exact Hab.
  - rewrite H3 in Hab by assumption. rewrite G3 in Hbc by assumption.
    destruct (String.eqb_spec ba bc) as [Xac|Xac].
    + exfalso. rewrite <- Xac in Hbc.
      pose proof (compareAnything_sign ba bb) as Hs.
      apply sgn_opp_iff in Hs.
      assert (H0 : compareAnything ba bb query = 0) by lia.
      apply compareAnything_zero in H0. contradiction.
    + rewrite K3 by assumption. eapply compareAnything_trans; eassumption.
Qed.

Lemma compare_sign (a b : T) : Z.sgn (cmp a b) = - Z.sgn (cmp b a).
Proof.
  destruct (compare_cases compareAnything accessor query a b)
    as [[Ho Hr]|[[Ho Hr]|[He Hr]]];
  destruct (compare_cases compareAnything accessor query b a)
    as [[Ho' Hr']|[[Ho' Hr']|[He' Hr']]];
  try (destruct (outranks_asym _ _ Ho Ho'));
  try (destruct (outranks_neq _ _ Ho He'));
  try (destruct (outranks_neq _ _ Ho (eq_sym He')));
  try (destruct (outranks_neq _ _ Ho' He));
  try (destruct (outranks_neq _ _ Ho' (eq_sym He)));
  rewrite Hr, Hr'; try reflexivity.
  apply tie_sign.
Qed.

Lemma compare_zero (a b : T) :
  cmp a b = 0 <-> file_key accessor a = file_key accessor b.
Proof.
  split.
  - intros H0.
    destruct (compare_cases compareAnything accessor query a b)
      as [[Ho Hr]|[[Ho Hr]|[He Hr]]];
      rewrite Hr in H0; try discriminate.
    apply tie_zero, H0.
  - intros Hk. rewrite compare_key, Hk, <- compare_key.
    destruct (compare_cases compareAnything accessor query b b)
      as [[Ho _]|[[Ho _]|[_ Hr]]];
      try (destruct (outranks_irrefl _ Ho)).
    rewrite Hr. apply tie_zero. reflexivity.
Qed.

Lemma compare_le_trans (a b c : T) :
  cmp a b <= 0 -> cmp b c <= 0 -> cmp a c <= 0.
Proof.
  intros Hab Hbc.
  destruct (compare_cases compareAnything accessor query a b)
    as [[Ho1 Hr1]|[[Ho1 Hr1]|[He1 Hr1]]];
    [|rewrite Hr1 in Hab; lia|];
  (destruct (compare_cases compareAnything accessor query b c)
    as [[Ho2 Hr2]|[[Ho2 Hr2]|[He2 Hr2]]];
    [|rewrite Hr2 in Hbc; lia|]);
  destruct (compare_cases compareAnything accessor query a c)
    as [[Ho3 Hr3]|[[Ho3 Hr3]|[He3 Hr3]]];
  rewrite Hr3; try lia.
  - destruct (outranks_asym _ _ (outranks_trans _ _ _ Ho1 Ho2) Ho3).
  - destruct (outranks_neq _ _ (outranks_trans _ _ _ Ho1 Ho2) He3).
  - rewrite <- He2 in Ho3. destruct (outranks_asym _ _ Ho1 Ho3).
  - rewrite <- He2 in He3. destruct (outranks_neq _ _ Ho1 He3).
  - rewrite He1 in Ho3. destruct (outranks_asym _ _ Ho2 Ho3).
  - rewrite He1 in He3. destruct (outranks_neq _ _ Ho2 He3).
  - rewrite He1, He2 in Ho3. destruct (outranks_irrefl _ Ho3).
  - rewrite Hr1 in Hab. rewrite Hr2 in Hbc.
    exact (tie_trans a b c Hab Hbc).
Qed.

Lemma compare_lt_trans (a b c : T) :
  cmp a b < 0 -> cmp b c < 0 -> cmp a c < 0.
Proof.
  intros Hab Hbc.
  assert (Hle : cmp a c <= 0) by (apply (compare_le_trans a b c); lia).
  destruct (Z.eq_dec (cmp a c) 0) as [H0|H0]; [|lia].
  exfalso. apply compare_zero in H0.
  assert (Hcb : cmp c b = cmp a b).
  { rewrite (compare_key _ _ _ c b), <- H0, <- compare_key. reflexivity. }
  pose proof (compare_sign b c) as Hs. apply sgn_opp_iff in Hs. lia.
Qed.

(** Without [compareAnything_zero]: "sorts before" is transitive all the
    same. *)
Lemma compareAnything_lt_trans x y z :
  compareAnything x y query < 0 -> compareAnything y z query < 0 ->
  compareAnything x z query < 0.
Proof.
  intros Hxy Hyz.
  assert (Hle : compareAnything x z query <= 0)
    by (apply (compareAnything_trans x y z); lia).
  destruct (Z.eq_dec (compareAnything x z query) 0) as [H0|H0]; [|lia].
  exfalso.
  pose proof (compareAnything_sign x z) as Hs. apply sgn_opp_iff in Hs.
  assert (Hzx : compareAnything z x query <= 0) by lia.
  pose proof (compareAnything_trans z x y Hzx ltac:(lia)) as Hzy.
  pose proof (compareAnything_sign y z) as Hs'. apply sgn_opp_iff in Hs'.
  lia.
Qed.

Lemma tie_lt_trans (a b c : T) :
  tie a b < 0 -> tie b c < 0 -> tie a c < 0.
Proof.
  destruct (tie_break_spec compareAnything (getBasename accessor a)
              (getBasename accessor b) (getPath accessor a)
              (getPath accessor b) query) as (H1 & H2 & H3 & H4).
  destruct (tie_break_spec compareAnything (getBasename accessor b)
              (getBasename accessor c) (getPath accessor b)
              (getPath accessor c) query) as (G1 & G2 & G3 & G4).
  destruct (tie_break_spec compareAnything (getBasename accessor a)
              (getBasename accessor c) (getPath accessor a)
              (getPath accessor c) query) as (K1 & K2 & K3 & K4).
  set (ba := getBasename accessor a) in *.
  set (bb := getBasename accessor b) in *.
  set (bc := getBasename accessor c) in *.
  set (pa := getPath accessor a) in *.
  set (pb := getPath accessor b) in *.
  set (pc := getPath accessor c) in *.
  intros Hab Hbc.
  destruct (Z.eq_dec (strlen ba) (strlen bb)) as [Eab|Eab].
  2: { rewrite H1 in Hab by exact Eab.
       destruct (Z.eq_dec (strlen bb) (strlen bc)) as [Ebc|Ebc].
       - rewrite K1 by lia. lia.
       - rewrite G1 in Hbc by exact Ebc. rewrite K1 by lia. lia. }
  destruct (Z.eq_dec (strlen bb) (strlen bc)) as [Ebc|Ebc].
  2: { rewrite G1 in Hbc by exact Ebc. rewrite K1 by lia. lia. }
  destruct (Z.eq_dec (strlen pa) (strlen pb)) as [Fab|Fab].
  2: { rewrite H2 in Hab by assumption.
       destruct (Z.eq_dec (strlen pb) (strlen pc)) as [Fbc|Fbc].
       - rewrite K2 by lia. lia.
       - rewrite G2 in Hbc by assumption. rewrite K2 by lia. lia. }
  destruct (Z.eq_dec (strlen pb) (strlen pc)) as [Fbc|Fbc].
  2: { rewrite G2 in Hbc by assumption. rewrite K2 by lia. lia. }
  assert (Eac : strlen ba = strlen bc) by lia.
  assert (Fac : strlen pa = strlen pc) by lia.
  destruct (String.eqb_spec ba bb) as [Xab|Xab],
    (String.eqb_spec bb bc) as [Xbc|Xbc].
  - rewrite H4 in Hab by assumption. rewrite G4 in Hbc by assumption.
    rewrite K4 by congruence. eapply compareAnything_lt_trans; eassumption.
  - rewrite G3 in Hbc by assumption.
    rewrite K3 by congruence. rewrite Xab. exact Hbc.
  - rewrite H3 in Hab by assumption.
    rewrite K3 by congruence. rewrite <- Xbc. exact Hab.
  - rewrite H3 in Hab by assumption. rewrite G3 in Hbc by assumption.
    destruct (String.eqb_spec ba bc) as [Xac|Xac].
    + exfalso. rewrite <- Xac in Hbc.
      pose proof (compareAnything_sign ba bb) as Hs.
      apply sgn_opp_iff in Hs. lia.
    + rewrite K3 by assumption.
      eapply compareAnything_lt_trans; eassumption.
Qed.

Lemma compare_before_trans (a b c : T) :
  cmp a b < 0 -> cmp b c < 0 -> cmp a c < 0.
Proof.
  intros Hab Hbc.
  destruct (compare_cases compareAnything accessor query a b)
    as [[Ho1 Hr1]|[[Ho1 Hr1]|[He1 Hr1]]];
    [|rewrite Hr1 in Hab; lia|];
  (destruct (compare_cases compareAnything accessor query b c)
    as [[Ho2 Hr2]|[[Ho2 Hr2]|[He2 Hr2]]];
    [|rewrite Hr2 in Hbc; lia|]);
  destruct (compare_cases compareAnything accessor query a c)
    as [[Ho3 Hr3]|[[Ho3 Hr3]|[He3 Hr3]]];
  rewrite Hr3; try lia.
  - destruct (outranks_asym _ _ (outranks_trans _ _ _ Ho1 Ho2) Ho3).
  - destruct (outranks_neq _ _ (outranks_trans _ _ _ Ho1 Ho2) He3).
  - rewrite <- He2 in Ho3. destruct (outranks_asym _ _ Ho1 Ho3).
  - rewrite <- He2 in He3. destruct (outranks_neq _ _ Ho1 He3).
  - rewrite He1 in Ho3. destruct (outranks_asym _ _ Ho2 Ho3).
  - rewrite He1 in He3. destruct (outranks_neq _ _ Ho2 He3).
  - rewrite He1, He2 in Ho3. destruct (outranks_irrefl _ Ho3).
  - rewrite Hr1 in Hab. rewrite Hr2 in Hbc.
    exact (tie_lt_trans a b c Hab Hbc).
Qed.

End ComparatorOrder.

Lemma compare_codes_sign (x y q : string) :
  Z.sgn (compare_codes x y q) = - Z.sgn (compare_codes y x q).
Proof.
  unfold compare_codes. rewrite (String.compare_antisym x y).
  destruct (String.compare y x); reflexivity.
Qed.

Lemma compare_codes_zero (x y q : string) : compare_codes x y q = 0 -> x = y.
Proof.
  unfold compare_codes. intros H. apply String.compare_eq_iff.
  destruct (String.compare x y); [reflexivity|discriminate..].
Qed.

Lemma compare_codes_le (x y q : string) :
  compare_codes x y q <= 0 <-> String.le x y.
Proof.
  unfold compare_codes, String.le, String.leb.
  destruct (String.compare x y); cbn; split; intros; try lia; try done.
Qed.

Lemma compare_codes_trans (x y z q : string) :
  compare_codes x y q <= 0 -> compare_codes y z q <= 0 ->
  compare_codes x z q <= 0.
Proof.
  rewrite !compare_codes_le. intros Hxy Hyz. by etrans.
Qed.

Lemma compare_cyclic_sign (x y q : string) :
  Z.sgn (compare_cyclic x y q) = - Z.sgn (compare_cyclic y x q).
Proof.
  unfold compare_cyclic.
  destruct (String.eqb_spec x "a"), (String.eqb_spec y "c"),
    (String.eqb_spec x "c"), (String.eqb_spec y "a");
    cbn [andb]; try congruence; try reflexivity; apply compare_codes_sign.
Qed.

Lemma compare_cyclic_zero (x y q : string) :
  compare_cyclic x y q = 0 -> x = y.
Proof.
  unfold compare_cyclic.
  destruct (String.eqb x "a" && String.eqb y "c"); [discriminate|].
  destruct (String.eqb x "c" && String.eqb y "a"); [discriminate|].
  apply compare_codes_zero.
Qed.

(** C5, as stated, fails, in four ways.

    (1) Whatever [compareAnything] is, the comparator is not a deterministic
    sort order on the files themselves: two distinct files with the same
    basename and path compare as [compareAnything] does on two equal paths,
    in both directions; opposite signs force that to be 0, and then both
    orders of the two files are sorted.

    (2) Nor is it one on the files as their basename and path show them,
    even for a [compareAnything] that has opposite signs on swapped
    arguments and is transitive: the code returns what [compareAnything]
    says of two different basenames also when that is 0.  With a
    [compareAnything] that ignores case, "/z/AB" ties with "/m/ab" and
    "/m/ab" ties with "/a/AB", but "/z/AB" sorts after "/a/AB", whose
    basename is the same string: ties are not transitive.

    (3) and (4) The comparator ends in [compareAnything] and inherits its
    defects: with one that always answers "after", [compare(a, b)] and
    [compare(b, a)] are both 1; with one that goes round in a circle (but
    has opposite signs on swapped arguments and is 0 on equal strings only)
    "sorts before" is not transitive. *)
Lemma compare_sort_order_counterexample :
  (~ exists compareAnything : string -> string -> string -> Z,
       sort_order id
         (fun a b : bool =>
            compareFilesByScore_nc compareAnything a b one_path "x"))
  /\ ((forall x y,
         Z.sgn (compare_ignoring_case x y "ab")
         = - Z.sgn (compare_ignoring_case y x "ab"))
      /\ (forall x y z,
            compare_ignoring_case x y "ab" <= 0 ->
            compare_ignoring_case y z "ab" <= 0 ->
            compare_ignoring_case x z "ab" <= 0)
      /\ compareFilesByScore_nc compare_ignoring_case ("AB", "/z/AB")
           ("ab", "/m/ab") key_accessor "ab" = 0
      /\ compareFilesByScore_nc compare_ignoring_case ("ab", "/m/ab")
           ("AB", "/a/AB") key_accessor "ab" = 0
      /\ compareFilesByScore_nc compare_ignoring_case ("AB", "/z/AB")
           ("AB", "/a/AB") key_accessor "ab" = 1
      /\ ~ sort_order (file_key key_accessor)
             (fun a b =>
                compareFilesByScore_nc compare_ignoring_case a b key_accessor
                  "ab"))
  /\ ((forall x y z,
         compare_after x y "x" <= 0 -> compare_after y z "x" <= 0 ->
         compare_after x z "x" <= 0)
      /\ (forall x y, compare_after x y "x" = 0 -> x = y)
      /\ Z.sgn (compareFilesByScore_nc compare_after ("a", "/a") ("b", "/b")
                  key_accessor "x")
         <> - Z.sgn (compareFilesByScore_nc compare_after ("b", "/b")
                       ("a", "/a") key_accessor "x"))
  /\ ((forall x y,
         Z.sgn (compare_cyclic x y "x") = - Z.sgn (compare_cyclic y x "x"))
      /\ (forall x y, compare_cyclic x y "x" = 0 -> x = y)
      /\ compareFilesByScore_nc compare_cyclic ("a", "/a") ("b", "/b")
           key_accessor "x" < 0
      /\ compareFilesByScore_nc compare_cyclic ("b", "/b") ("c", "/c")
           key_accessor "x" < 0
      /\ 0 < compareFilesByScore_nc compare_cyclic ("a", "/a") ("c", "/c")
               key_accessor "x").
Proof.
  split; [|split; [|split]].
  - intros (cA & Hsign & _ & _ & Hsorted).
    assert (Hv : forall a b : bool,
               compareFilesByScore_nc cA a b one_path "x" = cA "/f" "/f" "x")
      by reflexivity.
    assert (H0 : cA "/f" "/f" "x" = 0).
    { specialize (Hsign true true). rewrite Hv in Hsign.
      apply sgn_opp_iff in Hsign. lia. }
    specialize (Hsorted [true; false] [false; true]).
    rewrite !list_fmap_id in Hsorted.
    assert (Heq : [true; false] = [false; true]); [|discriminate].
    apply Hsorted; [apply perm_swap| |];
      repeat constructor; rewrite Hv, H0; lia.
  - assert (Hab : compareFilesByScore_nc compare_ignoring_case ("AB", "/z/AB")
                    ("ab", "/m/ab") key_accessor "ab" = 0)
      by (vm_compute; reflexivity).
    assert (Hbc : compareFilesByScore_nc compare_ignoring_case ("ab", "/m/ab")
                    ("AB", "/a/AB") key_accessor "ab" = 0)
      by (vm_compute; reflexivity).
    assert (Hac : compareFilesByScore_nc compare_ignoring_case ("AB", "/z/AB")
                    ("AB", "/a/AB") key_accessor "ab" = 1)
      by (vm_compute; reflexivity).
    split; [intros x y; apply compare_codes_sign|].
    split; [intros x y z; apply compare_codes_trans|].
    split; [exact Hab|]. split; [exact Hbc|]. split; [exact Hac|].
    intros (_ & _ & Hle & _).
    specialize (Hle ("AB", "/z/AB") ("ab", "/m/ab") ("AB", "/a/AB")).
    cbv beta in Hle. rewrite Hab, Hbc, Hac in Hle. lia.
  - split; [intros x y z; unfold compare_after; lia|].
    split; [intros x y; unfold compare_after; lia|].
    vm_compute. discriminate.
  - split; [intros x y; apply compare_cyclic_sign|].
    split; [intros x y; apply compare_cyclic_zero|].
    vm_compute. repeat split.
Qed.

(** C5, amended.  What the comparator is as an order depends on
    [compareAnything], in which it ends.  Provided that, for the query at
    hand, [compareAnything] has opposite signs on swapped arguments and is
    transitive: [compare(a, b)] and [compare(b, a)] have opposite signs and
    "sorts before" is transitive.  Provided that [compareAnything] moreover
    is zero on equal strings only: "sorts not after" is transitive too (a
    strict weak ordering), two files tie exactly when they have the same
    basename and the same path, and all sorted permutations of a collection
    show the same sequence of (basename, path) pairs. *)
Theorem compare_sort_order {T : Type}
    (compareAnything : string -> string -> string -> Z)
    (accessor : IFileAccessor T) (query : string) :
  (forall x y,
     Z.sgn (compareAnything x y query) = - Z.sgn (compareAnything y x query)) ->
  (forall x y z,
     compareAnything x y query <= 0 -> compareAnything y z query <= 0 ->
     compareAnything x z query <= 0) ->
  ((forall a b,
      Z.sgn (compareFilesByScore_nc compareAnything a b accessor query)
      = - Z.sgn (compareFilesByScore_nc compareAnything b a accessor query))
   /\ (forall a b c,
         compareFilesByScore_nc compareAnything a b accessor query < 0 ->
         compareFilesByScore_nc compareAnything b c accessor query < 0 ->
         compareFilesByScore_nc compareAnything a c accessor query < 0))
  /\ ((forall x y, compareAnything x y query = 0 -> x = y) ->
      sort_order (file_key accessor)
        (fun a b => compareFilesByScore_nc compareAnything a b accessor query)
      /\ (forall a b,
            compareFilesByScore_nc compareAnything a b accessor query = 0
            <-> file_key accessor a = file_key accessor b)).
Proof.
  intros Hsign Htrans. split.
  { split; [intros a b; apply compare_sign; assumption|].
    intros a b c. apply compare_before_trans; assumption. }
  intros Hzero.
  split; [|intros a b; apply compare_zero; assumption].
  split; [intros a b; apply compare_sign; assumption|].
  split; [intros a b c; apply compare_lt_trans; assumption|].
  split; [intros a b c; apply compare_le_trans; assumption|].
  intros l1 l2 Hperm Hs1 Hs2.
  set (R := fun k1 k2 : string * string =>
              compareFilesByScore_nc compareAnything k1 k2 key_accessor query
              <= 0).
  assert (HT : Transitive R).
  { intros k1 k2 k3. apply compare_le_trans; assumption. }
  assert (HA : AntiSymm (=) R).
  { intros k1 k2 H12 H21. unfold R in H12, H21.
    assert (Hs : Z.sgn (compareFilesByScore_nc compareAnything k1 k2
                          key_accessor query)
                 = - Z.sgn (compareFilesByScore_nc compareAnything k2 k1
                              key_accessor query))
      by (apply compare_sign; assumption).
    apply sgn_opp_iff in Hs.
    assert (H0 : compareFilesByScore_nc compareAnything k1 k2 key_accessor
                   query = 0) by lia.
    apply compare_zero in H0; try assumption.
    rewrite !file_key_key_accessor in H0. exact H0. }
  apply (Sorted_unique R).
  - eapply Sorted_fmap; [|exact Hs1].
    intros x y Hxy. unfold R. rewrite <- compare_key. exact Hxy.
  - eapply Sorted_fmap; [|exact Hs2].
    intros x y Hxy. unfold R. rewrite <- compare_key. exact Hxy.
  - apply fmap_Permutation, Hperm.
Qed.

(** The theorem at the files of the scorer's test suite, with the order of
    the character codes standing in for [compareAnything] (which is not
    among the sources) and with the comparator that ignores case: the first
    gives a sort order, the second opposite signs and a transitive "sorts
    before". *)
Lemma compare_sort_order_witness :
  sort_order (file_key ResourceAccessor)
    (fun a b =>
       compareFilesByScore_nc compare_codes a b ResourceAccessor "somepath")
  /\ (forall a b c,
        compareFilesByScore_nc compare_ignoring_case a b ResourceAccessor
          "somepath" < 0 ->
        compareFilesByScore_nc compare_ignoring_case b c ResourceAccessor
          "somepath" < 0 ->
        compareFilesByScore_nc compare_ignoring_case a c ResourceAccessor
          "somepath" < 0).
Proof.
  split.
  - apply (proj2 (compare_sort_order compare_codes ResourceAccessor
                    "somepath"
                    (fun x y => compare_codes_sign x y "somepath")
                    (fun x y z => compare_codes_trans x y z "somepath"))).
    intros x y. apply compare_codes_zero.
  - apply (proj1 (compare_sort_order compare_ignoring_case ResourceAccessor
                    "somepath"
                    (fun x y =>
                       compare_codes_sign (toLowerCase x) (toLowerCase y)
                         "somepath")
                    (fun x y z =>
                       compare_codes_trans (toLowerCase x) (toLowerCase y)
                         (toLowerCase z) "somepath"))).
Defined.

(** ** The score ranges of the tiers *)

(** A score that is not zero lies between the length of the query and 14
    times that length minus 4. *)
Lemma score_nc_nonzero target query :
  fst (score_nc target query) <> 0 ->
  Z.of_nat (String.length query) <= fst (score_nc target query)
  <= 14 * Z.of_nat (String.length query) - 4.
Proof.
  intros Hnz. destruct query as [|c q].
  { rewrite score_nc_empty_query in Hnz. contradiction. }
  destruct (greedy_search target (String c q)) as [l|] eqn:Hl.
  - destruct (score_nc_Some target (String c q) l
                ltac:(discriminate) Hl) as [-> Hb].
    exact Hb.
  - rewrite (score_nc_None _ _ Hl) in Hnz. contradiction.
Qed.

Lemma tier_of_BasenameSubsequence {T : Type} (f : T)
    (accessor : IFileAccessor T) (query : string) :
  tier_of (Some f) accessor query = BasenameSubsequence ->
  fst (score_nc (getBasename accessor f) query) <> 0.
Proof.
  unfold tier_of.
  repeat match goal with
    | |- context [bool_decide ?P] => destruct (bool_decide_reflect P)
    | |- context [String.prefix ?a ?b] => destruct (String.prefix a b)
    end; intros; try discriminate; assumption.
Qed.

Lemma tier_of_PathSubsequence {T : Type} (f : T)
    (accessor : IFileAccessor T) (query : string) :
  tier_of (Some f) accessor query = PathSubsequence ->
  fst (score_nc (getPath accessor f) query) <> 0.
Proof.
  unfold tier_of.
  repeat match goal with
    | |- context [bool_decide ?P] => destruct (bool_decide_reflect P)
    | |- context [String.prefix ?a ?b] => destruct (String.prefix a b)
    end; intros; try discriminate; assumption.
Qed.

(** *** Scores of long runs of dots *)

Lemma indexOf_here s c k :
  String.get k s = Some c -> indexOf s c k = Some k.
Proof.
  intros Hget. destruct (indexOf s c k) as [i|] eqn:E.
  - destruct (indexOf_Some _ _ _ _ E) as (Hle & _ & Hfirst).
    destruct (Nat.eq_dec i k) as [->|Hne]; [reflexivity|].
    destruct (Hfirst k ltac:(lia) Hget).
  - destruct (indexOf_None _ _ _ E k ltac:(lia) Hget).
Qed.

Lemma indexOf_next s c a k :
  String.get k s = Some a -> a <> c -> String.get (S k) s = Some c ->
  indexOf s c k = Some (S k).
Proof.
  intros Hk Hne Hget. destruct (indexOf s c k) as [i|] eqn:E.
  - destruct (indexOf_Some _ _ _ _ E) as (Hle & Hi & Hfirst).
    destruct (Nat.eq_dec i k) as [->|Hik]; [congruence|].
    destruct (Nat.eq_dec i (S k)) as [->|Hik']; [reflexivity|].
    destruct (Hfirst (S k) ltac:(lia) Hget).
  - destruct (indexOf_None _ _ _ E (S k) ltac:(lia) Hget).
Qed.

Lemma string_repeat_dot n :
  string_repeat (S n) "." = String "."%char (string_repeat n ".").
Proof. reflexivity. Qed.

Lemma string_repeat_x_dot n :
  string_repeat (S n) "x."
  = String "x"%char (String "."%char (string_repeat n "x.")).
Proof. reflexivity. Qed.

Lemma length_string_repeat_dot n : String.length (string_repeat n ".") = n.
Proof.
  induction n as [|n IH]; [reflexivity|].
  rewrite string_repeat_dot. cbn [String.length]. congruence.
Qed.

Lemma length_string_repeat_x_dot n :
  String.length (string_repeat n "x.") = (2 * n)%nat.
Proof.
  induction n as [|n IH]; [reflexivity|].
  rewrite string_repeat_x_dot. cbn [String.length]. lia.
Qed.

Lemma get_string_repeat_dot n rest j :
  (j < n)%nat -> String.get j (string_repeat n "." +:+ rest) = Some "."%char.
Proof.
  revert j. induction n as [|n IH]; intros j Hj; [lia|].
  destruct j as [|j]; [reflexivity|]. apply (IH j). lia.
Qed.

Lemma get_string_repeat_x_dot n j :
  (j < n)%nat ->
  String.get (2 * j) (string_repeat n "x.") = Some "x"%char
  /\ String.get (2 * j + 1) (string_repeat n "x.") = Some "."%char.
Proof.
  revert j. induction n as [|n IH]; intros j Hj; [lia|].
  destruct j as [|j]; [split; reflexivity|].
  replace (2 * S j)%nat with (S (S (2 * j))) by lia.
  apply (IH j). lia.
Qed.

Lemma eqb_length_neq a b :
  String.length a <> String.length b -> a <> b.
Proof. intros H ->. contradiction. Qed.

(** A run of dots in the target that continues the previous match: each
    dot is worth 1 + 5 + 1 + 7. *)
Lemma score_steps_run target m :
  forall index startAt sc mp,
    (0 < index)%nat -> (0 < startAt)%nat ->
    (forall j, (startAt - 1 <= j < startAt + m)%nat ->
               String.get j target = Some "."%char) ->
    score_steps target (string_repeat m ".") index startAt sc mp
    = (sc + 14 * Z.of_nat m, mp ++ seq startAt m).
Proof.
  induction m as [|m IH]; intros index startAt sc mp Hi Hs Hdots.
  - cbn [string_repeat score_steps seq]. rewrite app_nil_r. f_equal. lia.
  - rewrite string_repeat_dot. cbn [score_steps].
    change (lower_char ".") with "."%char.
    rewrite (indexOf_here (toLowerCase target) "." startAt)
      by (rewrite get_toLowerCase, Hdots by lia; reflexivity).
    rewrite IH; [|lia|lia|intros j Hj; apply Hdots; lia].
    cbn [seq]. rewrite <- app_assoc, (Nat.add_1_r startAt). cbn [app].
    f_equal. unfold step_bonus. rewrite is_boundary_some.
    rewrite Nat.eqb_refl, (proj2 (Nat.ltb_lt 0 index) Hi).
    rewrite !Hdots by lia. cbn [andb strict_eq].
    rewrite Ascii.eqb_refl.
    replace (startAt =? 0)%nat with false
      by (symmetry; apply Nat.eqb_neq; lia).
    change (from_option is_boundary false (Some "."%char)) with true.
    lia.
Qed.

(** Dots that each follow an "x": each is worth 1 + 1. *)
Lemma score_steps_apart target m :
  forall a index sc mp,
    (forall j, (a <= j < a + m)%nat ->
               String.get (2 * j) target = Some "x"%char
               /\ String.get (2 * j + 1) target = Some "."%char) ->
    score_steps target (string_repeat m ".") index (2 * a) sc mp
    = (sc + 2 * Z.of_nat m, mp ++ ((fun j => 2 * j + 1)%nat <$> seq a m)).
Proof.
  induction m as [|m IH]; intros a index sc mp Hpat.
  - cbn [string_repeat score_steps seq fmap list_fmap].
    rewrite app_nil_r. f_equal. lia.
  - rewrite string_repeat_dot. cbn [score_steps].
    change (lower_char ".") with "."%char.
    destruct (Hpat a ltac:(lia)) as [Hx Hd].
    rewrite (Nat.add_1_r (2 * a)) in Hd.
    rewrite (indexOf_next (toLowerCase target) "." "x" (2 * a))
      by (rewrite ?get_toLowerCase, ?Hx, ?Hd; first [reflexivity|discriminate]).
    replace (S (2 * a) + 1)%nat with (2 * S a)%nat by lia.
    rewrite IH by (intros j Hj; apply Hpat; lia).
    cbn [seq fmap list_fmap]. rewrite <- app_assoc. cbn [app].
    rewrite (Nat.add_1_r (2 * a)).
    f_equal. unfold step_bonus, charCodeAt. rewrite is_boundary_some.
    replace (2 * a =? S (2 * a))%nat with false
      by (symmetry; apply Nat.eqb_neq; lia).
    replace (S (2 * a) - 1)%nat with (2 * a)%nat by lia.
    rewrite Hd, Hx. cbn [andb strict_eq Nat.eqb].
    rewrite Ascii.eqb_refl.
    change (from_option is_boundary false (Some "x"%char)) with false.
    change (from_option isUpper false (nat_of_ascii <$> Some "."%char))
      with false.
    lia.
Qed.

Lemma score_nc_run n rest :
  score_nc (string_repeat (S n) "." +:+ rest) (string_repeat (S n) ".")
  = (10 + 14 * Z.of_nat n, seq 0 (S n)).
Proof.
  assert (Hdots : forall j, (j < S n)%nat ->
            String.get j (string_repeat (S n) "." +:+ rest) = Some "."%char)
    by (intros j Hj; apply get_string_repeat_dot, Hj).
  rewrite score_nc_guards.
  assert (Hp : passes_guards (string_repeat (S n) "." +:+ rest)
                 (string_repeat (S n) ".") = true).
  { apply passes_guards_true. repeat split; try discriminate.
    rewrite length_string_repeat_dot.
    destruct (Nat.le_gt_cases (S n)
                (String.length (string_repeat (S n) "." +:+ rest)))
      as [Hle|Hgt]; [exact Hle|].
    assert (Hn : String.get n (string_repeat (S n) "." +:+ rest)
                 = Some "."%char) by (apply Hdots; lia).
    apply get_Some_lt in Hn. lia. }
  rewrite Hp. unfold score_compute.
  rewrite score_while_steps by lia. cbn [drop_str].
  set (target := string_repeat (S n) "." +:+ rest) in *.
  rewrite string_repeat_dot. cbn [score_steps].
  change (lower_char ".") with "."%char.
  rewrite (indexOf_here (toLowerCase target) "." 0)
    by (rewrite get_toLowerCase, Hdots by lia; reflexivity).
  rewrite score_steps_run; [|lia|lia|intros j Hj; apply Hdots; lia].
  unfold step_bonus. rewrite Hdots by lia.
  cbn [Nat.eqb Nat.ltb Nat.leb andb strict_eq app seq Nat.add].
  rewrite Ascii.eqb_refl.
  match goal with |- context [0 <? ?x] =>
    replace (0 <? x) with true by (symmetry; apply Z.ltb_lt; lia) end.
  reflexivity.
Qed.

Lemma score_nc_apart n :
  score_nc (string_repeat (S n) "x.") (string_repeat (S n) ".")
  = (2 * Z.of_nat (S n), (fun j => 2 * j + 1)%nat <$> seq 0 (S n)).
Proof.
  rewrite score_nc_guards.
  assert (Hp : passes_guards (string_repeat (S n) "x.")
                 (string_repeat (S n) ".") = true).
  { apply passes_guards_true. repeat split; try discriminate.
    rewrite length_string_repeat_dot, length_string_repeat_x_dot. lia. }
  rewrite Hp. unfold score_compute.
  rewrite score_while_steps by lia. cbn [drop_str].
  pose proof (score_steps_apart (string_repeat (S n) "x.") (S n) 0 0 0 [])
    as Hst.
  change (2 * 0)%nat with 0%nat in Hst.
  rewrite Hst by (intros j Hj; apply get_string_repeat_x_dot; lia).
  cbn [app]. rewrite Z.add_0_l.
  replace (0 <? 2 * Z.of_nat (S n)) with true
    by (symmetry; apply Z.ltb_lt; lia).
  reflexivity.
Qed.

Lemma tier_dotted_path_file n :
  tier_of (Some (dotted_path_file (S n))) key_accessor
    (string_repeat (S n) ".") = PathSubsequence
  /\ fscore (scoreFile_nc (Some (dotted_path_file (S n))) key_accessor
               (string_repeat (S n) "."))
     = 10 + 14 * Z.of_nat n.
Proof.
  assert (Ht : tier_of (Some (dotted_path_file (S n))) key_accessor
                 (string_repeat (S n) ".") = PathSubsequence).
  { unfold tier_of, dotted_path_file. cbn [key_accessor getBasename getPath
      fst snd].
    rewrite bool_decide_eq_false_2 by (intros [?|?]; discriminate).
    rewrite bool_decide_eq_false_2.
    2: { apply eqb_length_neq. rewrite !length_toLowerCase.
         rewrite length_string_repeat_dot.
         assert (Hg : String.get (S n) (string_repeat (S n) "." +:+ "/b")
                      = Some "/"%char).
         { clear. induction n as [|n IH]; [reflexivity|exact IH]. }
         apply get_Some_lt in Hg. lia. }
    rewrite string_repeat_dot at 1.
    change (String.prefix (toLowerCase (String "." (string_repeat n ".")))
              (toLowerCase "b")) with false.
    rewrite (score_nc_None "b") by reflexivity.
    rewrite bool_decide_eq_false_2 by (intros H; apply H; reflexivity).
    rewrite score_nc_run. cbn [fst].
    rewrite bool_decide_eq_true_2 by lia. reflexivity. }
  split; [exact Ht|].
  rewrite scoreFile_nc_tier, Ht. unfold dotted_path_file.
  cbn [tier_result fscore key_accessor getPath snd].
  rewrite score_nc_run. reflexivity.
Qed.

Lemma tier_dotted_basename_file n :
  tier_of (Some (dotted_basename_file (S n))) key_accessor
    (string_repeat (S n) ".") = BasenameSubsequence
  /\ fscore (scoreFile_nc (Some (dotted_basename_file (S n))) key_accessor
               (string_repeat (S n) "."))
     = 2 * Z.of_nat (S n) + BASENAME_SCORE_THRESHOLD.
Proof.
  assert (Ht : tier_of (Some (dotted_basename_file (S n))) key_accessor
                 (string_repeat (S n) ".") = BasenameSubsequence).
  { unfold tier_of, dotted_basename_file. cbn [key_accessor getBasename
      getPath fst snd].
    rewrite bool_decide_eq_false_2 by (intros [?|?]; discriminate).
    rewrite bool_decide_eq_false_2.
    2: { apply eqb_length_neq. rewrite !length_toLowerCase.
         rewrite length_string_repeat_dot.
         change (String.length ("/" +:+ string_repeat (S n) "x."))
           with (S (String.length (string_repeat (S n) "x."))).
         rewrite length_string_repeat_x_dot. lia. }
    rewrite string_repeat_dot at 1. rewrite string_repeat_x_dot at 1.
    change (String.prefix (toLowerCase (String "." (string_repeat n ".")))
              (toLowerCase
                 (String "x" (String "." (string_repeat n "x.")))))
      with false.
    rewrite score_nc_apart. cbn [fst].
    rewrite bool_decide_eq_true_2 by lia. reflexivity. }
  split; [exact Ht|].
  rewrite scoreFile_nc_tier, Ht. unfold dotted_basename_file.
  cbn [tier_result fscore key_accessor getBasename fst].
  rewrite score_nc_apart. reflexivity.
Qed.

(** ** Claim about the score ranges *)

(** C6, as stated, fails.  With a query of 4682 dots, the file whose path is
    those dots followed by "/b" is a path-only (tier 4) match with the raw
    score 10 + 14 * 4681 = 65544, above [BASENAME_SCORE_THRESHOLD] = 65536.
    With a query of 5462 dots, the path-only match of the same shape scores
    76464, more than the 65536 + 2 * 5462 = 76460 of a basename-subsequence
    (tier 3) match for the same query, the dots being one apart in the
    basename. *)
Lemma tier_score_order_counterexample :
  let query1 := string_repeat (Z.to_nat 4682) "." in
  let file1 := dotted_path_file (Z.to_nat 4682) in
  let query2 := string_repeat (Z.to_nat 5462) "." in
  let file4 := dotted_path_file (Z.to_nat 5462) in
  let file3 := dotted_basename_file (Z.to_nat 5462) in
  (tier_of (Some file1) key_accessor query1 = PathSubsequence
   /\ fscore (scoreFile_nc (Some file1) key_accessor query1) = 65544
   /\ BASENAME_SCORE_THRESHOLD
      < fscore (scoreFile_nc (Some file1) key_accessor query1))
  /\ (tier_of (Some file3) key_accessor query2 = BasenameSubsequence
      /\ tier_of (Some file4) key_accessor query2 = PathSubsequence
      /\ fscore (scoreFile_nc (Some file3) key_accessor query2) = 76460
      /\ fscore (scoreFile_nc (Some file4) key_accessor query2) = 76464
      /\ fscore (scoreFile_nc (Some file3) key_accessor query2)
         < fscore (scoreFile_nc (Some file4) key_accessor query2)).
Proof.
  cbv zeta.
  change (Z.to_nat 4682) with (S (Z.to_nat 4681)).
  change (Z.to_nat 5462) with (S (Z.to_nat 5461)).
  destruct (tier_dotted_path_file (Z.to_nat 4681)) as [Ht1 Hs1].
  destruct (tier_dotted_path_file (Z.to_nat 5461)) as [Ht4 Hs4].
  destruct (tier_dotted_basename_file (Z.to_nat 5461)) as [Ht3 Hs3].
  rewrite Ht1, Ht3, Ht4, Hs1, Hs3, Hs4.
  rewrite Nat2Z.inj_succ, !Z2Nat.id by lia.
  change BASENAME_SCORE_THRESHOLD with 65536.
  repeat split; lia.
Qed.

(** C6, amended.  The constants are ordered identity > prefix > threshold,
    and every basename-subsequence (tier 3) score lies above the threshold.
    A path-only (tier 4) score lies below the threshold, and so below every
    tier 3 score, when its query has at most 4681 characters. *)
Theorem tier_score_order {T3 T4 : Type}
    (file3 : T3) (accessor3 : IFileAccessor T3) (query3 : string)
    (file4 : T4) (accessor4 : IFileAccessor T4) (query4 : string) :
  BASENAME_SCORE_THRESHOLD < BASENAME_PREFIX_SCORE < PATH_IDENTITY_SCORE
  /\ (tier_of (Some file3) accessor3 query3 = BasenameSubsequence ->
      BASENAME_SCORE_THRESHOLD
      < fscore (scoreFile_nc (Some file3) accessor3 query3))
  /\ (tier_of (Some file4) accessor4 query4 = PathSubsequence ->
      (String.length query4 <= 4681)%nat ->
      0 < fscore (scoreFile_nc (Some file4) accessor4 query4)
        < BASENAME_SCORE_THRESHOLD)
  /\ (tier_of (Some file3) accessor3 query3 = BasenameSubsequence ->
      tier_of (Some file4) accessor4 query4 = PathSubsequence ->
      (String.length query4 <= 4681)%nat ->
      fscore (scoreFile_nc (Some file4) accessor4 query4)
      < fscore (scoreFile_nc (Some file3) accessor3 query3)).
Proof.
  assert (H3 : tier_of (Some file3) accessor3 query3 = BasenameSubsequence ->
               BASENAME_SCORE_THRESHOLD
               < fscore (scoreFile_nc (Some file3) accessor3 query3)).
  { intros Ht. rewrite scoreFile_nc_tier, Ht. cbn [tier_result fscore].
    apply tier_of_BasenameSubsequence, score_nc_nonzero in Ht. lia. }
  assert (H4 : tier_of (Some file4) accessor4 query4 = PathSubsequence ->
               (String.length query4 <= 4681)%nat ->
               0 < fscore (scoreFile_nc (Some file4) accessor4 query4)
                 < BASENAME_SCORE_THRESHOLD).
  { intros Ht Hlen. rewrite scoreFile_nc_tier, Ht. cbn [tier_result fscore].
    apply tier_of_PathSubsequence in Ht.
    pose proof (score_nc_nonzero _ _ Ht) as Hb.
    change BASENAME_SCORE_THRESHOLD with 65536.
    assert (Hq : (0 < String.length query4)%nat).
    { destruct query4; [|simpl; lia].
      rewrite score_nc_empty_query in Ht. contradiction. }
    lia. }
  split; [vm_compute; split; reflexivity|].
  split; [exact H3|]. split; [exact H4|].
  intros Ht3 Ht4 Hlen. specialize (H3 Ht3). specialize (H4 Ht4 Hlen). lia.
Qed.

Lemma tier_score_order_witness :
  fscore (scoreFile_nc (Some "/xyz/some/path/someFile123.txt")
            ResourceAccessor "xyz123")
  < fscore (scoreFile_nc (Some "/xyz/some/path/someFile123.txt")
              ResourceAccessor "of").
Proof.
  apply (tier_score_order
           "/xyz/some/path/someFile123.txt" ResourceAccessor "of"
           "/xyz/some/path/someFile123.txt" ResourceAccessor "xyz123");
    [reflexivity | reflexivity | simpl; lia].
Defined.

(** * Further properties of the code *)

(** ** Lemmas on the concatenation of strings *)

Lemma append_String a s r : String a s +:+ r = String a (s +:+ r).
Proof. reflexivity. Qed.

Lemma length_append s r :
  String.length (s +:+ r) = (String.length s + String.length r)%nat.
Proof.
  induction s as [|a s IH]; [reflexivity|].
  rewrite append_String. cbn [String.length]. rewrite IH. reflexivity.
Qed.

(** The key [target + query] and the query give the target back. *)
Lemma append_inj_r t t' q : t +:+ q = t' +:+ q -> t = t'.
Proof.
  intros H.
  assert (Hlen : String.length t = String.length t').
  { apply (f_equal String.length) in H. rewrite !length_append in H. lia. }
  revert t' H Hlen. induction t as [|a t IH]; intros [|a' t'] H Hlen;
    try discriminate; [reflexivity|].
  rewrite !append_String in H. injection H as -> H.
  f_equal. apply IH; [exact H|]. cbn [String.length] in Hlen. lia.
Qed.

Lemma toLowerCase_append s r :
  toLowerCase (s +:+ r) = toLowerCase s +:+ toLowerCase r.
Proof.
  induction s as [|a s IH]; [reflexivity|].
  rewrite append_String. cbn [toLowerCase]. rewrite IH. reflexivity.
Qed.

Lemma get_append_l s r i :
  (i < String.length s)%nat -> String.get i (s +:+ r) = String.get i s.
Proof.
  revert i. induction s as [|a s IH]; intros i Hi; [simpl in Hi; lia|].
  rewrite append_String. destruct i as [|i]; [reflexivity|].
  cbn [String.get]. apply IH. cbn [String.length] in Hi. lia.
Qed.

Lemma toLowerCase_length_eq q q' :
  toLowerCase q = toLowerCase q' -> String.length q = String.length q'.
Proof.
  intros H. apply (f_equal String.length) in H.
  rewrite !length_toLowerCase in H. exact H.
Qed.

(** ** The loop of [score] *)

Lemma score_steps_exit target qs :
  forall index startAt sc mp,
    exists l,
      snd (score_steps target qs index startAt sc mp) = mp ++ l
      /\ (length l <= String.length qs)%nat
      /\ (fst (score_steps target qs index startAt sc mp) <> 0 ->
          length l = String.length qs).
Proof.
  induction qs as [|qc qs IH]; intros index startAt sc mp;
    cbn [score_steps String.length].
  - exists []. rewrite app_nil_r. auto.
  - destruct (indexOf (toLowerCase target) (lower_char qc) startAt) as [i|].
    + destruct (IH (index + 1)%nat (i + 1)%nat
                  (sc + step_bonus target qc index startAt i) (mp ++ [i]))
        as (l & -> & Hle & Hall).
      exists (i :: l). rewrite <- app_assoc. cbn [app length].
      split; [reflexivity|]. split; [lia|]. intros H. rewrite (Hall H).
      reflexivity.
    + exists []. cbn [fst snd length]. rewrite app_nil_r.
      split; [reflexivity|]. split; [lia|]. intros H. congruence.
Qed.

(** X1.  From any state, the [while] loop of [score] is left after at most
    [queryLen - index] iterations: more iterations than that change
    nothing.  It only appends to [matchingPositions], at most one index per
    remaining query character, and when it is left with a score other than
    0 it has appended exactly one index for every remaining character. *)
Theorem score_while_exit (target query : string) (more index startAt : nat)
    (score : Z) (matchingPositions : list nat) :
  let remaining := (String.length query - index)%nat in
  let r := score_while target query remaining index startAt score
             matchingPositions in
  score_while target query (remaining + more) index startAt score
    matchingPositions = r
  /\ exists pushed,
       snd r = matchingPositions ++ pushed
       /\ (length pushed <= remaining)%nat
       /\ (fst r <> 0 -> length pushed = remaining).
Proof.
  cbv zeta. rewrite !score_while_steps by lia. split; [reflexivity|].
  rewrite <- (drop_str_length query index). apply score_steps_exit.
Qed.

(** ** The score and the positions of a match *)

(** A result other than the sentinel comes from a successful search for a
    query that is not empty. *)
Lemma score_nc_matched target query :
  score_nc target query <> NO_SCORE ->
  query <> EmptyString
  /\ exists l, greedy_search target query = Some l
       /\ score_nc target query = (steps_total target query 0 0 l, l)
       /\ Forall (fun i => (i < String.length target)%nat) l.
Proof.
  intros Hs.
  assert (Hq : query <> EmptyString).
  { intros ->. apply Hs, score_nc_empty_query. }
  split; [exact Hq|].
  destruct (greedy_search target query) as [l|] eqn:Hl.
  - exists l. split; [reflexivity|].
    destruct (score_nc_Some target query l Hq Hl) as [-> _].
    rewrite (steps_total_bonus_total _ _ _ Hl). split; [reflexivity|].
    destruct (greedy_from_positions _ _ _ _ Hl) as (_ & Hall & _).
    eapply Forall_impl; [exact Hall|]. intros i Hi. cbn beta in Hi.
    rewrite length_toLowerCase in Hi. lia.
  - destruct Hs. apply score_nc_None, Hl.
Qed.

Lemma score_nc_steps target query l :
  query <> EmptyString ->
  greedy_search target query = Some l ->
  score_nc target query = (steps_total target query 0 0 l, l).
Proof.
  intros Hq Hl. destruct (score_nc_Some target query l Hq Hl) as [-> _].
  rewrite (steps_total_bonus_total _ _ _ Hl). reflexivity.
Qed.

Lemma step_bonus_ge_1 target qc index startAt i :
  1 <= step_bonus target qc index startAt i.
Proof.
  unfold step_bonus.
  repeat match goal with |- context [if ?b then _ else _] =>
    destruct b end; lia.
Qed.

Lemma steps_total_ge target qs :
  forall index startAt l,
    length l = String.length qs ->
    Z.of_nat (length l) <= steps_total target qs index startAt l.
Proof.
  induction qs as [|qc qs IH]; intros index startAt [|i l] Hlen;
    try discriminate.
  cbn [steps_total]. cbn [length String.length] in Hlen.
  pose proof (step_bonus_ge_1 target qc index startAt i).
  pose proof (IH (index + 1)%nat (i + 1)%nat l ltac:(lia)).
  cbn [length]. lia.
Qed.

(** X2.  A result of [score] is the sentinel or has a score of at least
    [len(query)] and at most [14 * len(query) - 4]: every matched character
    earns between 1 and 14, the first one at most 10.  The upper bound is
    reached for every length: a query of [n] dots against a target that
    starts with [n] dots. *)
Theorem score_bounds (target query : string) :
  (score_nc target query = NO_SCORE
   \/ Z.of_nat (String.length query) <= fst (score_nc target query)
      <= 14 * Z.of_nat (String.length query) - 4)
  /\ forall n rest,
       fst (score_nc (string_repeat (S n) "." +:+ rest)
              (string_repeat (S n) "."))
       = 14 * Z.of_nat (String.length (string_repeat (S n) ".")) - 4.
Proof.
  split.
  - destruct query as [|c q]; [left; apply score_nc_empty_query|].
    destruct (greedy_search target (String c q)) as [l|] eqn:Hl.
    + right.
      destruct (score_nc_Some target (String c q) l ltac:(discriminate) Hl)
        as [-> Hb].
      exact Hb.
    + left. apply score_nc_None, Hl.
  - intros n rest. rewrite score_nc_run, length_string_repeat_dot.
    cbn [fst]. lia.
Qed.

(** *** The leftmost way to find the query *)

Lemma greedy_from_embeds tl ql :
  forall k l, greedy_from tl ql k = Some l -> embeds tl ql k l = true.
Proof.
  induction ql as [|c ql IH]; intros k l; cbn [greedy_from].
  - intros [= <-]. reflexivity.
  - destruct (indexOf tl c k) as [i|] eqn:Hi; [|discriminate].
    destruct (greedy_from tl ql (i + 1)) as [l'|] eqn:Hl'; [|discriminate].
    intros [= <-]. destruct (indexOf_Some _ _ _ _ Hi) as (Hki & Hget & _).
    cbn [embeds]. rewrite Nat.add_1_r in Hl'. rewrite (IH _ _ Hl').
    rewrite bool_decide_eq_true_2 by exact Hget.
    rewrite (proj2 (Nat.leb_le k i) Hki). reflexivity.
Qed.

Lemma embeds_from tl ql k k' js :
  (k <= k')%nat -> embeds tl ql k' js = true -> embeds tl ql k js = true.
Proof.
  intros Hk. destruct ql as [|c ql], js as [|j js]; cbn [embeds]; auto.
  rewrite !andb_true_iff, !Nat.leb_le. intros [[H1 H2] H3].
  repeat split; [lia|assumption|assumption].
Qed.

Lemma greedy_from_least tl ql :
  forall k js,
    embeds tl ql k js = true ->
    exists l, greedy_from tl ql k = Some l /\ Forall2 le l js.
Proof.
  induction ql as [|c ql IH]; intros k [|j js]; cbn [embeds greedy_from];
    try discriminate.
  - intros _. exists []. split; [reflexivity|constructor].
  - rewrite !andb_true_iff, Nat.leb_le, bool_decide_eq_true.
    intros [[Hkj Hget] Hrest].
    destruct (indexOf tl c k) as [i|] eqn:Hi.
    + destruct (indexOf_Some _ _ _ _ Hi) as (Hki & _ & Hfirst).
      assert (Hij : (i <= j)%nat).
      { destruct (Nat.le_gt_cases i j) as [H|H]; [exact H|].
        destruct (Hfirst j ltac:(lia) Hget). }
      destruct (IH (i + 1)%nat js) as (l' & -> & Hle).
      { apply (embeds_from _ _ _ (S j)); [lia|exact Hrest]. }
      exists (i :: l'). split; [reflexivity|]. constructor; assumption.
    + destruct (indexOf_None _ _ _ Hi j Hkj Hget).
Qed.

(** X3.  The positions of a result other than the sentinel are a way to
    find the query in the target: ascending indices of the target that
    hold, case ignored, the characters of the query in order.  They are the
    leftmost such way: whenever a non-empty query can be found at the
    indices [js], [score] does not return the sentinel and each of its
    positions is at most the corresponding index of [js]. *)
Theorem score_positions_leftmost (target query : string) :
  (score_nc target query <> NO_SCORE ->
   embedding target query (snd (score_nc target query)))
  /\ forall js,
       query <> EmptyString ->
       embedding target query js ->
       score_nc target query <> NO_SCORE
       /\ Forall2 le (snd (score_nc target query)) js.
Proof.
  split.
  - intros Hs. destruct (score_nc_matched _ _ Hs) as (_ & l & Hl & -> & _).
    apply greedy_from_embeds, Hl.
  - intros js Hq Hjs. apply greedy_from_least in Hjs as (l & Hl & Hle).
    destruct (score_nc_Some target query l Hq Hl) as [-> Hb].
    split; [|exact Hle].
    intros [= H0 _]. destruct query; [congruence|].
    cbn [String.length] in Hb. lia.
Qed.

Lemma score_positions_leftmost_witness :
  score_nc "HeLlo-World" "lo" <> NO_SCORE
  /\ Forall2 le (snd (score_nc "HeLlo-World" "lo")) [3; 7]%nat.
Proof.
  apply (proj2 (score_positions_leftmost "HeLlo-World" "lo"));
    [discriminate|reflexivity].
Defined.

(** *** Case *)

Lemma is_boundary_lower_char c : is_boundary (lower_char c) = is_boundary c.
Proof. destruct c as [[] [] [] [] [] [] [] []]; reflexivity. Qed.

Lemma get_lower_eq t t' j :
  toLowerCase t = toLowerCase t' ->
  lower_char <$> String.get j t = lower_char <$> String.get j t'.
Proof. intros H. rewrite <- !get_toLowerCase, H. reflexivity. Qed.

(** Between two targets that differ in case only, the bonus of a match at
    one index differs by the same-case bonus and the upper-case bonus at
    most. *)
Lemma step_bonus_case t t' qc qc' index startAt i :
  toLowerCase t = toLowerCase t' ->
  Z.abs (step_bonus t qc index startAt i - step_bonus t' qc' index startAt i)
  <= 2.
Proof.
  intros Ht. unfold step_bonus. rewrite !is_boundary_some.
  assert (Hb : from_option is_boundary false (String.get (i - 1) t)
               = from_option is_boundary false (String.get (i - 1) t')).
  { pose proof (get_lower_eq t t' (i - 1) Ht) as H.
    destruct (String.get (i - 1) t) as [a|],
      (String.get (i - 1) t') as [a'|]; try discriminate; [|reflexivity].
    injection H as H. cbn [from_option].
    rewrite <- (is_boundary_lower_char a), H. apply is_boundary_lower_char. }
  rewrite Hb.
  repeat match goal with |- context [if ?b then _ else _] =>
    destruct b end; lia.
Qed.

Lemma steps_total_case t t' qs :
  forall qs' index startAt l,
    toLowerCase t = toLowerCase t' ->
    String.length qs = String.length qs' ->
    Z.abs (steps_total t qs index startAt l
           - steps_total t' qs' index startAt l)
    <= 2 * Z.of_nat (String.length qs).
Proof.
  induction qs as [|qc qs IH]; intros [|qc' qs'] index startAt l Ht Hlen;
    try discriminate.
  destruct l as [|i l]; cbn [steps_total String.length]; [lia|].
  pose proof (step_bonus_case t t' qc qc' index startAt i Ht).
  cbn [String.length] in Hlen.
  pose proof (IH qs' (index + 1)%nat (i + 1)%nat l Ht ltac:(lia)). lia.
Qed.

(** X4.  Case decides neither whether nor where a query matches: two
    targets that are equal up to case and two queries that are equal up to
    case give the same positions, and the sentinel for the one pair exactly
    when for the other.  Case only moves the score, by at most 2 for every
    query character. *)
Theorem score_case_insensitive (target target' query query' : string) :
  toLowerCase target = toLowerCase target' ->
  toLowerCase query = toLowerCase query' ->
  snd (score_nc target query) = snd (score_nc target' query')
  /\ (score_nc target query = NO_SCORE <-> score_nc target' query' = NO_SCORE)
  /\ Z.abs (fst (score_nc target query) - fst (score_nc target' query'))
     <= 2 * Z.of_nat (String.length query).
Proof.
  intros Ht Hq.
  pose proof (toLowerCase_length_eq _ _ Hq) as Hlen.
  destruct query as [|c q].
  { destruct query'; [|discriminate]. rewrite !score_nc_empty_query.
    cbn. split; [reflexivity|]. split; [tauto|lia]. }
  destruct query' as [|c' q']; [discriminate|].
  destruct (greedy_search target (String c q)) as [l|] eqn:Hl.
  - assert (Hl' : greedy_search target' (String c' q') = Some l).
    { unfold greedy_search in *. rewrite <- Ht, <- Hq. exact Hl. }
    assert (Hne : String c q <> EmptyString) by discriminate.
    assert (Hne' : String c' q' <> EmptyString) by discriminate.
    rewrite (score_nc_steps _ _ _ Hne Hl), (score_nc_steps _ _ _ Hne' Hl').
    destruct (greedy_search_length _ _ _ Hl) as [Hlen1 _].
    destruct (greedy_search_length _ _ _ Hl') as [Hlen2 _].
    pose proof (steps_total_ge target (String c q) 0 0 l Hlen1).
    pose proof (steps_total_ge target' (String c' q') 0 0 l Hlen2).
    cbn [fst snd]. split; [reflexivity|]. split.
    + cbn [String.length] in Hlen1.
      split; intros Hz; apply (f_equal fst) in Hz; cbn [fst NO_SCORE] in Hz;
        exfalso; lia.
    + apply steps_total_case; assumption.
  - assert (Hl' : greedy_search target' (String c' q') = None).
    { unfold greedy_search in *. rewrite <- Ht, <- Hq. exact Hl. }
    rewrite (score_nc_None _ _ Hl), (score_nc_None _ _ Hl').
    cbn. split; [reflexivity|]. split; [tauto|lia].
Qed.

Lemma score_case_insensitive_witness :
  snd (score_nc "HeLlo-World" "HW") = snd (score_nc "hello-world" "hw")
  /\ (score_nc "HeLlo-World" "HW" = NO_SCORE
      <-> score_nc "hello-world" "hw" = NO_SCORE)
  /\ Z.abs (fst (score_nc "HeLlo-World" "HW")
            - fst (score_nc "hello-world" "hw"))
     <= 2 * Z.of_nat (String.length "HW").
Proof.
  apply (score_case_insensitive "HeLlo-World" "hello-world" "HW" "hw");
    reflexivity.
Defined.

(** *** A query that the target starts with *)

Lemma greedy_from_prefix tl ql :
  forall k,
    String.prefix ql (drop_str k tl) = true ->
    greedy_from tl ql k = Some (seq k (String.length ql)).
Proof.
  induction ql as [|c ql IH]; intros k; cbn [greedy_from String.length seq];
    [reflexivity|].
  destruct (drop_str k tl) as [|b rest] eqn:Hd; cbn [String.prefix];
    [discriminate|].
  destruct (ascii_dec c b) as [<-|]; [|discriminate].
  intros Hp. apply drop_str_String in Hd as [Hget Hd].
  rewrite (indexOf_here _ _ _ Hget), Nat.add_1_r, IH by (rewrite Hd; exact Hp).
  reflexivity.
Qed.

Lemma step_bonus_run target qc index startAt :
  (0 < index)%nat -> 6 <= step_bonus target qc index startAt startAt.
Proof.
  intros Hi. unfold step_bonus. rewrite Nat.eqb_refl.
  replace (0 <? index)%nat with true by (symmetry; apply Nat.ltb_lt; lia).
  cbn [andb].
  repeat match goal with |- context [if ?b then _ else _] =>
    destruct b end; lia.
Qed.

Lemma steps_total_run target qs :
  forall index startAt,
    (0 < index)%nat ->
    6 * Z.of_nat (String.length qs)
    <= steps_total target qs index startAt (seq startAt (String.length qs)).
Proof.
  induction qs as [|qc qs IH]; intros index startAt Hi;
    cbn [String.length seq steps_total]; [lia|].
  pose proof (step_bonus_run target qc index startAt Hi).
  pose proof (IH (index + 1)%nat (startAt + 1)%nat ltac:(lia)) as H'.
  rewrite !Nat.add_1_r in *. lia.
Qed.

(** X5.  A non-empty query that the target starts with, case ignored, is
    matched at the first [len(query)] indices of the target, and its score
    is at least [6 * len(query) + 3]: 9 for the match at index 0 and 6 for
    every consecutive match after it. *)
Theorem score_prefix (target query : string) :
  query <> EmptyString ->
  String.prefix (toLowerCase query) (toLowerCase target) = true ->
  snd (score_nc target query) = seq 0 (String.length query)
  /\ 6 * Z.of_nat (String.length query) + 3 <= fst (score_nc target query).
Proof.
  intros Hq Hp.
  assert (Hl : greedy_search target query
               = Some (seq 0 (String.length query))).
  { unfold greedy_search. rewrite <- (length_toLowerCase query).
    apply greedy_from_prefix. exact Hp. }
  rewrite (score_nc_steps _ _ _ Hq Hl). cbn [fst snd].
  split; [reflexivity|].
  destruct query as [|qc qs]; [congruence|].
  cbn [String.length seq steps_total].
  pose proof (steps_total_run target qs (0 + 1) 1 ltac:(lia)) as H.
  change (0 + 1)%nat with 1%nat in *.
  assert (9 <= step_bonus target qc 0 0 0).
  { unfold step_bonus. cbn [Nat.eqb Nat.ltb Nat.leb andb].
    destruct (strict_eq _ _); lia. }
  lia.
Qed.

Lemma score_prefix_witness :
  snd (score_nc "someFile123.txt" "SOM") = seq 0 (String.length "SOM")
  /\ 6 * Z.of_nat (String.length "SOM") + 3
     <= fst (score_nc "someFile123.txt" "SOM").
Proof.
  apply (score_prefix "someFile123.txt" "SOM"); [discriminate|reflexivity].
Defined.

(** *** Longer targets *)

Lemma indexOf_append s r c k i :
  indexOf s c k = Some i -> indexOf (s +:+ r) c k = Some i.
Proof.
  revert k i. induction s as [|a s IH]; intros k i; [discriminate|].
  rewrite append_String. cbn [indexOf]. destruct k as [|k].
  - destruct (Ascii.eqb a c); [auto|].
    destruct (indexOf s c 0) as [i'|] eqn:E; [|discriminate].
    rewrite (IH _ _ E). auto.
  - destruct (indexOf s c k) as [i'|] eqn:E; [|discriminate].
    rewrite (IH _ _ E). auto.
Qed.

Lemma greedy_from_append tl r ql :
  forall k l,
    greedy_from tl ql k = Some l -> greedy_from (tl +:+ r) ql k = Some l.
Proof.
  induction ql as [|c ql IH]; intros k l; cbn [greedy_from]; [auto|].
  destruct (indexOf tl c k) as [i|] eqn:Hi; [|discriminate].
  rewrite (indexOf_append _ r _ _ _ Hi).
  destruct (greedy_from tl ql (i + 1)) as [l'|] eqn:Hl'; [|discriminate].
  rewrite (IH _ _ Hl'). auto.
Qed.

Lemma step_bonus_append t r qc index startAt i :
  (i < String.length t)%nat ->
  step_bonus (t +:+ r) qc index startAt i = step_bonus t qc index startAt i.
Proof.
  intros Hi. unfold step_bonus, charCodeAt.
  rewrite (get_append_l t r i Hi).
  destruct (Nat.eqb_spec i 0) as [->|Hne]; [reflexivity|].
  rewrite (get_append_l t r (i - 1)) by lia. reflexivity.
Qed.

Lemma steps_total_append t r qs :
  forall index startAt l,
    Forall (fun i => (i < String.length t)%nat) l ->
    steps_total (t +:+ r) qs index startAt l
    = steps_total t qs index startAt l.
Proof.
  induction qs as [|qc qs IH]; intros index startAt [|i l] Hall;
    try reflexivity.
  cbn [steps_total]. apply Forall_cons in Hall as [Hi Hall].
  rewrite step_bonus_append by exact Hi. rewrite IH by exact Hall.
  reflexivity.
Qed.

(** X6.  What follows a match does not matter: when [score(target, query)]
    is not the sentinel, characters appended to the target change neither
    the score nor the positions. *)
Theorem score_target_extension (target rest query : string) :
  score_nc target query <> NO_SCORE ->
  score_nc (target +:+ rest) query = score_nc target query.
Proof.
  intros Hs. destruct (score_nc_matched _ _ Hs) as (Hq & l & Hl & -> & Hall).
  assert (Hl' : greedy_search (target +:+ rest) query = Some l).
  { unfold greedy_search. rewrite toLowerCase_append.
    apply greedy_from_append, Hl. }
  rewrite (score_nc_steps _ _ _ Hq Hl').
  rewrite steps_total_append by exact Hall. reflexivity.
Qed.

Lemma score_target_extension_witness :
  score_nc ("fileA" +:+ ".txt") "fa" = score_nc "fileA" "fa".
Proof.
  apply (score_target_extension "fileA" ".txt" "fa").
  vm_compute. discriminate.
Defined.

(** *** Longer queries *)

Lemma greedy_from_query_append tl ql ql' :
  forall k l,
    greedy_from tl (ql +:+ ql') k = Some l ->
    exists l1 l2,
      l = l1 ++ l2 /\ greedy_from tl ql k = Some l1
      /\ length l2 = String.length ql'.
Proof.
  induction ql as [|c ql IH]; intros k l.
  - intros H. exists [], l. split; [reflexivity|]. split; [reflexivity|].
    apply (greedy_from_positions _ _ _ _ H).
  - rewrite append_String. cbn [greedy_from].
    destruct (indexOf tl c k) as [i|]; [|discriminate].
    destruct (greedy_from tl (ql +:+ ql') (i + 1)) as [l'|] eqn:Hl';
      [|discriminate].
    intros [= <-]. destruct (IH _ _ Hl') as (l1 & l2 & -> & -> & Hlen).
    exists (i :: l1), l2. auto.
Qed.

Lemma steps_total_query_append target qs qs' :
  forall index startAt l1 l2,
    length l1 = String.length qs ->
    length l2 = String.length qs' ->
    steps_total target qs index startAt l1 + Z.of_nat (length l2)
    <= steps_total target (qs +:+ qs') index startAt (l1 ++ l2).
Proof.
  induction qs as [|qc qs IH]; intros index startAt [|i l1] l2 Hl1 Hl2;
    try discriminate.
  - cbn [steps_total app]. change (EmptyString +:+ qs') with qs'.
    pose proof (steps_total_ge target qs' index startAt l2 Hl2).
    destruct qs'; lia.
  - rewrite append_String. cbn [steps_total app].
    cbn [length String.length] in Hl1.
    pose proof (IH (index + 1)%nat (i + 1)%nat l1 l2 ltac:(lia) Hl2). lia.
Qed.

(** X7.  A query that matches still matches when it is cut short: if
    [score(target, query + more)] is not the sentinel, then for a non-empty
    [query] neither is [score(target, query)], its positions are the first
    [len(query)] positions of the longer match, and the longer match scores
    at least 1 more for every character of [more]. *)
Theorem score_query_extension (target query more : string) :
  query <> EmptyString ->
  score_nc target (query +:+ more) <> NO_SCORE ->
  score_nc target query <> NO_SCORE
  /\ snd (score_nc target query)
     = take (String.length query) (snd (score_nc target (query +:+ more)))
  /\ fst (score_nc target query) + Z.of_nat (String.length more)
     <= fst (score_nc target (query +:+ more)).
Proof.
  intros Hq Hs.
  destruct (score_nc_matched _ _ Hs) as (_ & l & Hl & -> & _).
  unfold greedy_search in Hl. rewrite toLowerCase_append in Hl.
  destruct (greedy_from_query_append _ _ _ _ _ Hl)
    as (l1 & l2 & -> & Hl1 & Hlen2).
  rewrite length_toLowerCase in Hlen2.
  destruct (greedy_search_length target query l1 Hl1) as [Hlen1 _].
  rewrite (score_nc_steps _ _ _ Hq Hl1). cbn [fst snd].
  split; [|split].
  - intros [= H0 _].
    pose proof (steps_total_ge target query 0 0 l1 Hlen1) as Hge.
    destruct query; [congruence|]. cbn [String.length] in Hlen1. lia.
  - rewrite <- Hlen1, take_app_length. reflexivity.
  - rewrite <- Hlen2. apply steps_total_query_append; assumption.
Qed.

Lemma score_query_extension_witness :
  score_nc "HeLlo-World" "HW" <> NO_SCORE
  /\ snd (score_nc "HeLlo-World" "HW")
     = take (String.length "HW")
         (snd (score_nc "HeLlo-World" ("HW" +:+ "ld")))
  /\ fst (score_nc "HeLlo-World" "HW") + Z.of_nat (String.length "ld")
     <= fst (score_nc "HeLlo-World" ("HW" +:+ "ld")).
Proof.
  apply (score_query_extension "HeLlo-World" "HW" "ld");
    [discriminate|vm_compute; discriminate].
Defined.

(** ** What the calls do to a cache *)

Lemma score_with_footprint (c : gmap string Score) (target query : string) :
  exists c',
    snd (score target query (Some c)) = Some c'
    /\ c ⊆ c'
    /\ dom c' = dom c ∪ (if passes_guards target query
                         then {[target +:+ query]} else ∅)
    /\ (passes_guards target query = true ->
        c' !! (target +:+ query) = Some (fst (score target query (Some c)))).
Proof.
  rewrite score_Some_cache, score_with_unfold.
  destruct (passes_guards target query) eqn:Hp.
  - destruct (c !! (target +:+ query)) as [v|] eqn:Hv; cbn [fst snd].
    + exists c. split; [reflexivity|]. split; [reflexivity|]. split.
      * assert (target +:+ query ∈ dom c) by (apply elem_of_dom; eauto).
        set_solver.
      * intros _. exact Hv.
    + eexists. split; [reflexivity|]. split; [|split].
      * apply insert_subseteq, Hv.
      * rewrite dom_insert_L. set_solver.
      * intros _. apply lookup_insert_eq.
  - exists c. cbn [fst snd]. split; [reflexivity|]. split; [reflexivity|].
    split; [set_solver|discriminate].
Qed.

(** X8.  What [score] does to a cache, whatever the cache holds: no entry
    is removed or changed; the only key that can be added is
    [target + query], and it is in the cache afterwards exactly when it was
    there before or the call got past the early [return]s; in that case the
    cache then holds the returned [Score] under that key.  Without a cache
    none is created. *)
Theorem score_cache_footprint (c : gmap string Score)
    (target query : string) :
  snd (score target query None) = None
  /\ exists c',
       snd (score target query (Some c)) = Some c'
       /\ c ⊆ c'
       /\ dom c' = dom c ∪ (if passes_guards target query
                            then {[target +:+ query]} else ∅)
       /\ (passes_guards target query = true ->
           c' !! (target +:+ query)
           = Some (fst (score target query (Some c)))).
Proof.
  split; [rewrite score_None; reflexivity|]. apply score_with_footprint.
Qed.

Lemma cache_for_empty query : cache_for query ∅.
Proof. intros t v _ H. rewrite lookup_empty in H. discriminate. Qed.

Lemma cache_for_insert query c target :
  cache_for query c ->
  cache_for query (<[target +:+ query := score_compute target query]> c).
Proof.
  intros Hc t v Hp Hv.
  destruct (decide (target +:+ query = t +:+ query)) as [He|Hne].
  - rewrite He, lookup_insert_eq in Hv. injection Hv as <-.
    apply append_inj_r in He as ->. reflexivity.
  - rewrite lookup_insert_ne in Hv by exact Hne. exact (Hc _ _ Hp Hv).
Qed.

(** One call on a cache that holds only computed scores for the query: the
    result is the one computed without a cache, and the cache afterwards
    extends the one before and still holds only computed scores. *)
Lemma score_cache_for query c target :
  cache_for query c ->
  exists c',
    score target query (Some c) = (score_nc target query, Some c')
    /\ c ⊆ c' /\ cache_for query c'.
Proof.
  intros Hc. rewrite score_Some_cache, score_with_unfold, score_nc_guards.
  destruct (passes_guards target query) eqn:Hp.
  - destruct (c !! (target +:+ query)) as [v|] eqn:Hv; cbn [fst snd].
    + exists c. rewrite (Hc _ _ Hp Hv). auto.
    + eexists. split; [reflexivity|]. split.
      * apply insert_subseteq, Hv.
      * apply cache_for_insert, Hc.
  - exists c. cbn [fst snd]. auto.
Qed.

Lemma cache_for_run_calls query (targets : list string) :
  forall c, cache_for query c ->
    cache_for query (run_calls ((fun target => (target, query)) <$> targets) c).
Proof.
  induction targets as [|t targets IH]; intros c Hc; [exact Hc|].
  cbn [fmap list_fmap run_calls foldl]. apply IH.
  destruct (score_cache_for query c t Hc) as (c' & Hs & _ & Hc').
  rewrite score_Some_cache in Hs. injection Hs as _ <-. exact Hc'.
Qed.

(** X9.  A cache that is used for one query does not change what [score]
    returns.  The key [target + query] and the query determine the target,
    so a cache that holds only scores computed for this query (the empty
    cache does, and so does the cache after any calls with this query)
    gives back the score of the very target asked for: [score] returns what
    it returns without a cache, and the cache afterwards extends the one
    before and again holds only scores computed for this query. *)
Theorem score_same_query_cache (query : string) :
  cache_for query ∅
  /\ (forall targets : list string,
        cache_for query
          (run_calls ((fun target => (target, query)) <$> targets) ∅))
  /\ forall (c : gmap string Score) (target : string),
       cache_for query c ->
       exists c',
         score target query (Some c)
         = (fst (score target query None), Some c')
         /\ c ⊆ c' /\ cache_for query c'.
Proof.
  split; [apply cache_for_empty|]. split.
  - intros targets. apply cache_for_run_calls, cache_for_empty.
  - intros c target Hc. apply score_cache_for, Hc.
Qed.

Lemma score_same_query_cache_witness :
  exists c',
    score "fileA.txt" "fa"
      (Some (run_calls [("fileB.txt", "fa"); ("/some/path/fileA.txt", "fa")]
               ∅))
    = (fst (score "fileA.txt" "fa" None), Some c')
    /\ run_calls [("fileB.txt", "fa"); ("/some/path/fileA.txt", "fa")] ∅ ⊆ c'
    /\ cache_for "fa" c'.
Proof.
  apply (proj2 (proj2 (score_same_query_cache "fa"))).
  apply (cache_for_run_calls "fa" ["fileB.txt"; "/some/path/fileA.txt"]).
  apply cache_for_empty.
Defined.

Lemma scoreFile_Some_cache {T : Type} (file : option T)
    (accessor : IFileAccessor T) (query : string) (c : gmap string Score) :
  exists c',
    snd (scoreFile file accessor query (Some c)) = Some c'
    /\ c ⊆ c'
    /\ (forall k, k ∈ dom c' ->
          k ∈ dom c
          \/ exists f, file = Some f
               /\ (k = getBasename accessor f +:+ query
                   \/ k = getPath accessor f +:+ query))
    /\ (file = None
        \/ tier_of file accessor query = Identity
        \/ tier_of file accessor query = BasenamePrefix -> c' = c).
Proof.
  unfold scoreFile, tier_of.
  destruct file as [f|]; [|exists c; cbn [snd]; auto].
  rewrite <- falsy_or. unfold isEqual, matchesPrefix.
  destruct (falsy _ || falsy _); [exists c; cbn [snd]; auto|].
  destruct (String.eqb_spec (toLowerCase query)
              (toLowerCase (getPath accessor f))) as [He|He].
  { exists c; cbn [snd]; auto. }
  rewrite bool_decide_eq_false_2 by exact He.
  destruct (String.prefix _ _); [exists c; cbn [snd]; auto|].
  rewrite score_Some_cache.
  destruct (score_with_footprint c (getBasename accessor f) query)
    as (c1 & Hc1 & Hsub1 & Hdom1 & _).
  rewrite score_Some_cache in Hc1. cbn [snd] in Hc1. injection Hc1 as Hc1.
  rewrite Hc1.
  assert (Hd1 : forall k, k ∈ dom c1 ->
            k ∈ dom c
            \/ exists f0, Some f = Some f0
                 /\ (k = getBasename accessor f0 +:+ query
                     \/ k = getPath accessor f0 +:+ query)).
  { intros k Hk. rewrite Hdom1 in Hk.
    apply elem_of_union in Hk as [Hk|Hk]; [left; exact Hk|].
    destruct (passes_guards (getBasename accessor f) query);
      [|destruct (not_elem_of_empty (C:=gset string) k Hk)].
    apply elem_of_singleton in Hk. right. exists f. auto. }
  set (later :=
         if bool_decide (fst (score_nc (getBasename accessor f) query) <> 0)
         then BasenameSubsequence
         else if bool_decide (fst (score_nc (getPath accessor f) query) <> 0)
              then PathSubsequence else NoMatch).
  assert (Hno : Some f = None \/ later = Identity \/ later = BasenamePrefix
                -> False).
  { unfold later. intros [?|[H|H]]; [discriminate| |];
      repeat case_bool_decide; discriminate. }
  clearbody later.
  destruct (fst (score_with c (getBasename accessor f, query)))
    as [bs bp].
  destruct (negb (bs =? 0)).
  { exists c1. cbn [snd]. split; [reflexivity|]. split; [exact Hsub1|].
    split; [exact Hd1|]. intros H. destruct (Hno H). }
  rewrite score_Some_cache.
  destruct (score_with_footprint c1 (getPath accessor f) query)
    as (c2 & Hc2 & Hsub2 & Hdom2 & _).
  rewrite score_Some_cache in Hc2. cbn [snd] in Hc2. injection Hc2 as Hc2.
  rewrite Hc2.
  assert (Hd2 : forall k, k ∈ dom c2 ->
            k ∈ dom c
            \/ exists f0, Some f = Some f0
                 /\ (k = getBasename accessor f0 +:+ query
                     \/ k = getPath accessor f0 +:+ query)).
  { intros k Hk. rewrite Hdom2 in Hk.
    apply elem_of_union in Hk as [Hk|Hk]; [apply Hd1, Hk|].
    destruct (passes_guards (getPath accessor f) query);
      [|destruct (not_elem_of_empty (C:=gset string) k Hk)].
    apply elem_of_singleton in Hk. right. exists f. auto. }
  destruct (fst (score_with c1 (getPath accessor f, query))) as [ps pp].
  destruct (negb (ps =? 0)); exists c2; cbn [snd];
    (split; [reflexivity|]); (split; [by etrans|]);
    (split; [exact Hd2|]); intros H; destruct (Hno H).
Qed.

(** X10.  What [scoreFile] does to a cache, whatever the cache holds: no
    entry is removed or changed, and the only keys that can be added are
    [basename + query] and [path + query] of the file.  An absent file, an
    identity match and a basename prefix match are decided before [score]
    is called and leave the cache as it is.  Without a cache none is
    created. *)
Theorem scoreFile_cache_footprint {T : Type} (file : option T)
    (accessor : IFileAccessor T) (query : string) (c : gmap string Score) :
  snd (scoreFile file accessor query None) = None
  /\ exists c',
       snd (scoreFile file accessor query (Some c)) = Some c'
       /\ c ⊆ c'
       /\ (forall k, k ∈ dom c' ->
             k ∈ dom c
             \/ exists f, file = Some f
                  /\ (k = getBasename accessor f +:+ query
                      \/ k = getPath accessor f +:+ query))
       /\ (file = None
           \/ tier_of file accessor query = Identity
           \/ tier_of file accessor query = BasenamePrefix -> c' = c).
Proof.
  split; [rewrite scoreFile_None; reflexivity|].
  apply scoreFile_Some_cache.
Qed.

Lemma scoreFile_cache_for {T : Type} (file : option T)
    (accessor : IFileAccessor T) (query : string) (c : gmap string Score) :
  cache_for query c ->
  exists c',
    scoreFile file accessor query (Some c)
    = (scoreFile_nc file accessor query, Some c')
    /\ c ⊆ c' /\ cache_for query c'.
Proof.
  intros Hc. unfold scoreFile_nc, scoreFile.
  destruct file as [f|]; [|exists c; auto].
  destruct (falsy _ || falsy _); [exists c; auto|].
  destruct (isEqual _ _ _); [exists c; auto|].
  destruct (matchesPrefix _ _); [exists c; auto|].
  rewrite !score_None.
  destruct (score_cache_for query c (getBasename accessor f) Hc)
    as (c1 & -> & Hsub1 & Hc1).
  destruct (score_nc (getBasename accessor f) query) as [bs bp].
  destruct (negb (bs =? 0)); [exists c1; auto|].
  destruct (score_cache_for query c1 (getPath accessor f) Hc1)
    as (c2 & -> & Hsub2 & Hc2).
  destruct (score_nc (getPath accessor f) query) as [ps pp].
  destruct (negb (ps =? 0)); exists c2;
    (split; [reflexivity|]); (split; [by etrans|exact Hc2]).
Qed.

(** X11.  With a cache that holds only scores computed for the query,
    [scoreFile] returns what it returns without a cache: the same score and
    the same matches.  The cache afterwards extends the one before and
    again holds only scores computed for this query, so the next call can
    rely on it in turn. *)
Theorem scoreFile_same_query_cache {T : Type} (file : option T)
    (accessor : IFileAccessor T) (query : string) (c : gmap string Score) :
  cache_for query c ->
  exists c',
    scoreFile file accessor query (Some c)
    = (fst (scoreFile file accessor query None), Some c')
    /\ c ⊆ c' /\ cache_for query c'.
Proof. apply scoreFile_cache_for. Qed.

Lemma scoreFile_same_query_cache_witness :
  exists c',
    scoreFile (Some "/some/path/fileA.txt") ResourceAccessor "fa"
      (Some (run_calls [("fileB.txt", "fa"); ("/some/path/fileA.txt", "fa")]
               ∅))
    = (fst (scoreFile (Some "/some/path/fileA.txt") ResourceAccessor "fa"
              None), Some c')
    /\ run_calls [("fileB.txt", "fa"); ("/some/path/fileA.txt", "fa")] ∅ ⊆ c'
    /\ cache_for "fa" c'.
Proof.
  apply (scoreFile_same_query_cache (Some "/some/path/fileA.txt")
           ResourceAccessor "fa").
  apply (cache_for_run_calls "fa" ["fileB.txt"; "/some/path/fileA.txt"]).
  apply cache_for_empty.
Defined.

Lemma compare_cache_for {T : Type}
    (compareAnything : string -> string -> string -> Z)
    (fileA fileB : T) (accessor : IFileAccessor T) (query : string)
    (c : gmap string Score) :
  cache_for query c ->
  exists c',
    compareFilesByScore compareAnything fileA fileB accessor query (Some c)
    = (compareFilesByScore_nc compareAnything fileA fileB accessor query,
       Some c')
    /\ c ⊆ c' /\ cache_for query c'.
Proof.
  intros Hc. unfold compareFilesByScore_nc, compareFilesByScore.
  rewrite !scoreFile_None.
  destruct (scoreFile_cache_for (Some fileA) accessor query c Hc)
    as (c1 & -> & Hsub1 & Hc1).
  destruct (scoreFile_cache_for (Some fileB) accessor query c1 Hc1)
    as (c2 & -> & Hsub2 & Hc2).
  exists c2. split; [reflexivity|]. split; [by etrans|exact Hc2].
Qed.

(** X12.  With a cache that holds only scores computed for the query,
    [compareFilesByScore] returns what it returns without a cache, and it
    leaves a cache that extends the one before and again holds only scores
    computed for this query: a sort can hand one cache to all its
    comparisons for a query and get the order it gets without a cache. *)
Theorem compareFilesByScore_same_query_cache {T : Type}
    (compareAnything : string -> string -> string -> Z)
    (fileA fileB : T) (accessor : IFileAccessor T) (query : string)
    (c : gmap string Score) :
  cache_for query c ->
  exists c',
    compareFilesByScore compareAnything fileA fileB accessor query (Some c)
    = (fst (compareFilesByScore compareAnything fileA fileB accessor query
              None), Some c')
    /\ c ⊆ c' /\ cache_for query c'.
Proof. apply compare_cache_for. Qed.

Lemma compareFilesByScore_same_query_cache_witness :
  exists c',
    compareFilesByScore compare_codes "/some/path/fileA.txt"
      "/some/path/other/fileB.txt" ResourceAccessor "somepath"
      (Some (run_calls [("fileC.txt", "somepath");
                        ("/some/path/fileA.txt", "somepath")] ∅))
    = (fst (compareFilesByScore compare_codes "/some/path/fileA.txt"
              "/some/path/other/fileB.txt" ResourceAccessor "somepath" None),
       Some c')
    /\ run_calls [("fileC.txt", "somepath");
                  ("/some/path/fileA.txt", "somepath")] ∅ ⊆ c'
    /\ cache_for "somepath" c'.
Proof.
  apply (compareFilesByScore_same_query_cache compare_codes
           "/some/path/fileA.txt" "/some/path/other/fileB.txt"
           ResourceAccessor "somepath").
  apply (cache_for_run_calls "somepath"
           ["fileC.txt"; "/some/path/fileA.txt"]).
  apply cache_for_empty.
Defined.

(** ** The score of a file and its tier *)

(** The score of a file, by its tier. *)
Lemma tier_scores {T : Type} (f : T) (accessor : IFileAccessor T)
    (query : string) :
  let s := fscore (scoreFile_nc (Some f) accessor query) in
  match tier_of (Some f) accessor query with
  | NoMatch => s = 0
  | Identity => s = 262144
  | BasenamePrefix => s = 131072
  | BasenameSubsequence =>
      65536 + Z.of_nat (String.length query) <= s
      <= 65536 + 14 * Z.of_nat (String.length query) - 4
      /\ query <> EmptyString
  | PathSubsequence =>
      Z.of_nat (String.length query) <= s
      <= 14 * Z.of_nat (String.length query) - 4
      /\ query <> EmptyString
  end.
Proof.
  cbv zeta. rewrite scoreFile_nc_tier.
  destruct (tier_of (Some f) accessor query) eqn:Ht;
    cbn [tier_result fscore NO_FILE_SCORE]; try reflexivity.
  - apply tier_of_BasenameSubsequence in Ht.
    pose proof (score_nc_nonzero _ _ Ht) as Hb.
    change BASENAME_SCORE_THRESHOLD with 65536. split; [lia|].
    intros ->. rewrite score_nc_empty_query in Ht. apply Ht. reflexivity.
  - apply tier_of_PathSubsequence in Ht.
    pose proof (score_nc_nonzero _ _ Ht) as Hb. split; [lia|].
    intros ->. rewrite score_nc_empty_query in Ht. apply Ht. reflexivity.
Qed.

(** X13.  For a query of at most 4681 characters the score of a file tells
    its tier, which is what [compareFilesByScore] relies on when it tests
    the score against the three constants: the score is
    [PATH_IDENTITY_SCORE] exactly for an identity match,
    [BASENAME_PREFIX_SCORE] exactly for a basename prefix match, strictly
    between [BASENAME_SCORE_THRESHOLD] and [BASENAME_PREFIX_SCORE] exactly
    for a basename subsequence match, strictly between 0 and
    [BASENAME_SCORE_THRESHOLD] exactly for a path subsequence match, and 0
    exactly when nothing matches.  So a higher tier has a higher score. *)
Theorem score_determines_tier {T : Type} (f : T)
    (accessor : IFileAccessor T) (query : string) :
  (String.length query <= 4681)%nat ->
  let s := fscore (scoreFile_nc (Some f) accessor query) in
  let tier := tier_of (Some f) accessor query in
  (tier = Identity <-> s = PATH_IDENTITY_SCORE)
  /\ (tier = BasenamePrefix <-> s = BASENAME_PREFIX_SCORE)
  /\ (tier = BasenameSubsequence
      <-> BASENAME_SCORE_THRESHOLD < s < BASENAME_PREFIX_SCORE)
  /\ (tier = PathSubsequence <-> 0 < s < BASENAME_SCORE_THRESHOLD)
  /\ (tier = NoMatch <-> s = 0).
Proof.
  intros Hlen. cbv zeta.
  pose proof (tier_scores f accessor query) as H. cbv zeta in H.
  set (s := fscore (scoreFile_nc (Some f) accessor query)) in *.
  change PATH_IDENTITY_SCORE with 262144.
  change BASENAME_PREFIX_SCORE with 131072.
  change BASENAME_SCORE_THRESHOLD with 65536.
  assert (Hq : query <> EmptyString -> (0 < String.length query)%nat).
  { destruct query; [congruence|simpl; lia]. }
  destruct (tier_of (Some f) accessor query);
    try match type of H with
        | _ /\ _ => destruct H as [H Hne]; apply Hq in Hne
        end;
    repeat split; intros; first [congruence | lia].
Qed.

Lemma score_determines_tier_witness :
  let f := "/xyz/some/path/someFile123.txt" in
  let s := fscore (scoreFile_nc (Some f) ResourceAccessor "of") in
  let tier := tier_of (Some f) ResourceAccessor "of" in
  (tier = Identity <-> s = PATH_IDENTITY_SCORE)
  /\ (tier = BasenamePrefix <-> s = BASENAME_PREFIX_SCORE)
  /\ (tier = BasenameSubsequence
      <-> BASENAME_SCORE_THRESHOLD < s < BASENAME_PREFIX_SCORE)
  /\ (tier = PathSubsequence <-> 0 < s < BASENAME_SCORE_THRESHOLD)
  /\ (tier = NoMatch <-> s = 0).
Proof.
  apply (score_determines_tier "/xyz/some/path/someFile123.txt"
           ResourceAccessor "of").
  simpl. lia.
Defined.

(** X14.  The score of a file is never negative, and it is 0 exactly when
    the result is the sentinel, which is exactly when it carries neither
    basename matches nor path matches.  Path matches without basename
    matches are what a path subsequence match returns, and only that. *)
Theorem scoreFile_zero_iff_no_match {T : Type} (file : option T)
    (accessor : IFileAccessor T) (query : string) :
  let r := scoreFile_nc file accessor query in
  0 <= fscore r
  /\ (fscore r = 0 <-> r = NO_FILE_SCORE)
  /\ (fscore r = 0 <-> basenameMatch r = None /\ pathMatch r = None)
  /\ (basenameMatch r = None /\ pathMatch r <> None
      <-> tier_of file accessor query = PathSubsequence).
Proof.
  cbv zeta. destruct file as [f|].
  2: { cbn. repeat split; try tauto; try lia; try discriminate. }
  pose proof (tier_scores f accessor query) as H. cbv zeta in H.
  rewrite scoreFile_nc_tier in *.
  assert (Hq : query <> EmptyString -> (0 < String.length query)%nat).
  { destruct query; [congruence|simpl; lia]. }
  destruct (tier_of (Some f) accessor query);
    cbn [tier_result fscore basenameMatch pathMatch NO_FILE_SCORE] in *;
    change PATH_IDENTITY_SCORE with 262144 in *;
    change BASENAME_PREFIX_SCORE with 131072 in *;
    try match type of H with
        | _ /\ _ => destruct H as [H Hne]; apply Hq in Hne
        end;
    repeat split; intros;
    repeat match goal with H : _ /\ _ |- _ => destruct H end;
    try discriminate; try congruence; try lia.
Qed.

(** ** The comparator and the scores *)

Lemma scoreFile_score_range {T : Type} (f : T) (accessor : IFileAccessor T)
    (query : string) :
  (String.length query <= 4681)%nat ->
  let s := fscore (scoreFile_nc (Some f) accessor query) in
  s = 262144 \/ s = 131072 \/ 0 <= s < 131072.
Proof.
  intros Hlen. pose proof (tier_scores f accessor query) as H.
  cbv zeta in *.
  destruct (tier_of (Some f) accessor query); lia.
Qed.

(** X15.  For a query of at most 4681 characters [compareFilesByScore]
    sorts by descending score: the file with the strictly higher
    [scoreFile] score comes first with the result -1 (1 when it is
    [fileB]), whatever [compareAnything] is; so a negative result means
    that [fileA] does not score less, a positive one that it does not score
    more. *)
Theorem compare_by_descending_score {T : Type}
    (compareAnything : string -> string -> string -> Z)
    (fileA fileB : T) (accessor : IFileAccessor T) (query : string) :
  (String.length query <= 4681)%nat ->
  let scoreA := fscore (scoreFile_nc (Some fileA) accessor query) in
  let scoreB := fscore (scoreFile_nc (Some fileB) accessor query) in
  let res := compareFilesByScore_nc compareAnything fileA fileB accessor
               query in
  (scoreB < scoreA -> res = -1)
  /\ (scoreA < scoreB -> res = 1)
  /\ (res < 0 -> scoreB <= scoreA)
  /\ (0 < res -> scoreA <= scoreB).
Proof.
  intros Hlen scoreA scoreB res.
  pose proof (scoreFile_score_range fileA accessor query Hlen) as HA.
  pose proof (scoreFile_score_range fileB accessor query Hlen) as HB.
  pose proof (compare_cases compareAnything accessor query fileA fileB)
    as Hcases.
  cbv zeta in HA, HB. fold scoreA in HA. fold scoreB in HB.
  fold scoreA scoreB res in Hcases.
  assert (Hab : outranks scoreA scoreB <-> scoreB < scoreA).
  { unfold outranks. change PATH_IDENTITY_SCORE with 262144.
    change BASENAME_PREFIX_SCORE with 131072. lia. }
  assert (Hba : outranks scoreB scoreA <-> scoreA < scoreB).
  { unfold outranks. change PATH_IDENTITY_SCORE with 262144.
    change BASENAME_PREFIX_SCORE with 131072. lia. }
  rewrite Hab, Hba in Hcases.
  repeat split; intros; lia.
Qed.

Lemma compare_by_descending_score_witness :
  let scoreA := fscore (scoreFile_nc (Some "/some/path/fileA.txt")
                          ResourceAccessor "fileA") in
  let scoreB := fscore (scoreFile_nc (Some "/some/path/other/fileB.txt")
                          ResourceAccessor "fileA") in
  let res := compareFilesByScore_nc compare_codes "/some/path/fileA.txt"
               "/some/path/other/fileB.txt" ResourceAccessor "fileA" in
  (scoreB < scoreA -> res = -1)
  /\ (scoreA < scoreB -> res = 1)
  /\ (res < 0 -> scoreB <= scoreA)
  /\ (0 < res -> scoreA <= scoreB).
Proof.
  apply (compare_by_descending_score compare_codes "/some/path/fileA.txt"
           "/some/path/other/fileB.txt" ResourceAccessor "fileA").
  simpl. lia.
Defined.

Lemma tie_break_lengths (cA cA' : string -> string -> string -> Z)
    (bA bB pA pB q : string) :
  strlen bA <> strlen bB \/ strlen pA <> strlen pB ->
  tie_break cA bA bB pA pB q = tie_break cA' bA bB pA pB q
  /\ tie_break cA bA bB pA pB q <> 0
  /\ tie_break cA bB bA pB pA q = - tie_break cA bA bB pA pB q.
Proof.
  unfold tie_break.
  destruct (Z.eqb_spec (strlen bA) (strlen bB)),
    (Z.eqb_spec (strlen pA) (strlen pB)),
    (Z.eqb_spec (strlen bB) (strlen bA)),
    (Z.eqb_spec (strlen pB) (strlen pA)); cbn [negb]; lia.
Qed.

(** X16.  [compareAnything] is the last resort of [compareFilesByScore]:
    when the two files differ in score, in the length of the basename or in
    the length of the path, the result does not depend on
    [compareAnything], it is not 0, and comparing the files the other way
    round gives the opposite result. *)
Theorem compare_before_compareAnything {T : Type}
    (compareAnything compareAnything' : string -> string -> string -> Z)
    (fileA fileB : T) (accessor : IFileAccessor T) (query : string) :
  fscore (scoreFile_nc (Some fileA) accessor query)
  <> fscore (scoreFile_nc (Some fileB) accessor query)
  \/ String.length (getBasename accessor fileA)
     <> String.length (getBasename accessor fileB)
  \/ String.length (getPath accessor fileA)
     <> String.length (getPath accessor fileB) ->
  compareFilesByScore_nc compareAnything fileA fileB accessor query
  = compareFilesByScore_nc compareAnything' fileA fileB accessor query
  /\ compareFilesByScore_nc compareAnything fileA fileB accessor query <> 0
  /\ compareFilesByScore_nc compareAnything fileB fileA accessor query
     = - compareFilesByScore_nc compareAnything fileA fileB accessor query.
Proof.
  intros Hd.
  pose proof (compare_cases compareAnything accessor query fileA fileB)
    as H1.
  pose proof (compare_cases compareAnything' accessor query fileA fileB)
    as H2.
  pose proof (compare_cases compareAnything accessor query fileB fileA)
    as H3.
  assert (Ht : fscore (scoreFile_nc (Some fileA) accessor query)
               = fscore (scoreFile_nc (Some fileB) accessor query) ->
            strlen (getBasename accessor fileA)
            <> strlen (getBasename accessor fileB)
            \/ strlen (getPath accessor fileA)
               <> strlen (getPath accessor fileB)).
  { intros He. unfold strlen. destruct Hd as [?|[?|?]]; [congruence| |];
      [left|right]; lia. }
  clear Hd.
  pose proof (fun He =>
    tie_break_lengths compareAnything compareAnything'
      (getBasename accessor fileA) (getBasename accessor fileB)
      (getPath accessor fileA) (getPath accessor fileB) query (Ht He))
    as Htie.
  clear Ht.
  set (sA := fscore (scoreFile_nc (Some fileA) accessor query)) in *.
  set (sB := fscore (scoreFile_nc (Some fileB) accessor query)) in *.
  pose proof (outranks_asym sA sB) as Hasym.
  pose proof (outranks_neq sA sB) as Hneq.
  pose proof (outranks_neq sB sA) as Hneq'.
  set (P := outranks sA sB) in *. set (Q := outranks sB sA) in *.
  set (r1 := compareFilesByScore_nc compareAnything fileA fileB accessor
               query) in *.
  set (r2 := compareFilesByScore_nc compareAnything' fileA fileB accessor
               query) in *.
  set (r3 := compareFilesByScore_nc compareAnything fileB fileA accessor
               query) in *.
  set (t1 := tie_break compareAnything (getBasename accessor fileA)
               (getBasename accessor fileB) (getPath accessor fileA)
               (getPath accessor fileB) query) in *.
  set (t2 := tie_break compareAnything' (getBasename accessor fileA)
               (getBasename accessor fileB) (getPath accessor fileA)
               (getPath accessor fileB) query) in *.
  set (t3 := tie_break compareAnything (getBasename accessor fileB)
               (getBasename accessor fileA) (getPath accessor fileB)
               (getPath accessor fileA) query) in *.
  clearbody sA sB P Q r1 r2 r3 t1 t2 t3.
  destruct H1 as [[HP1 E1]|[[HQ1 E1]|[He1 E1]]];
    destruct H2 as [[HP2 E2]|[[HQ2 E2]|[He2 E2]]];
    destruct H3 as [[HQ3 E3]|[[HP3 E3]|[He3 E3]]];
    try (exfalso; apply Hasym; assumption);
    try (exfalso; apply Hneq; [assumption|lia]);
    try (exfalso; apply Hneq'; [assumption|lia]);
    try (specialize (Htie He1)); lia.
Qed.

Lemma compare_before_compareAnything_witness :
  compareFilesByScore_nc compare_codes "/some/path/fileA.txt"
    "/some/path/other/fileB.txt" ResourceAccessor "somepath"
  = compareFilesByScore_nc (fun _ _ _ => 0) "/some/path/fileA.txt"
      "/some/path/other/fileB.txt" ResourceAccessor "somepath"
  /\ compareFilesByScore_nc compare_codes "/some/path/fileA.txt"
       "/some/path/other/fileB.txt" ResourceAccessor "somepath" <> 0
  /\ compareFilesByScore_nc compare_codes "/some/path/other/fileB.txt"
       "/some/path/fileA.txt" ResourceAccessor "somepath"
     = - compareFilesByScore_nc compare_codes "/some/path/fileA.txt"
          "/some/path/other/fileB.txt" ResourceAccessor "somepath".
Proof.
  apply (compare_before_compareAnything compare_codes (fun _ _ _ => 0)
           "/some/path/fileA.txt" "/some/path/other/fileB.txt"
           ResourceAccessor "somepath").
  right; right. vm_compute. discriminate.
Defined.

(** * Tests of the scorer's suite *)

(** Test "score": the scores of the thirteen queries against "HeLlo-World"
    come in descending order, and the positions are those asserted. *)
Example score_test :
  (fun query => fst (score_nc "HeLlo-World" query))
    <$> ["HelLo-World"; "hello-world"; "HW"; "hw"; "H"; "h"; "W"; "w"; "Ld";
         "ld"; "L"; "l"; "4"]
  = [86; 85; 19; 17; 10; 9; 9; 8; 5; 4; 3; 2; 0]
  /\ length (snd (score_nc "HeLlo-World" "HelLo-World")) = 11%nat
  /\ snd (score_nc "HeLlo-World" "HW") = [0; 6]%nat.
Proof. vm_compute. repeat split. Qed.

Example score_HW : score_nc "HeLlo-World" "HW" = (19, [0; 6]%nat).
Proof. vm_compute. reflexivity. Qed.

(** Test "scoreFile - matches are proper". *)
Example scoreFile_test :
  let resource := "/xyz/some/path/someFile123.txt" in
  scoreFile_nc (None : option string) ResourceAccessor "something"
  = NO_FILE_SCORE
  /\ scoreFile_nc (Some resource) ResourceAccessor resource
     = {| fscore := PATH_IDENTITY_SCORE;
          basenameMatch := Some [ {| start := 0; end_ := 15 |} ]%nat;
          pathMatch := Some [ {| start := 0; end_ := 30 |} ]%nat |}
  /\ scoreFile_nc (Some resource) ResourceAccessor "som"
     = {| fscore := BASENAME_PREFIX_SCORE;
          basenameMatch := Some [ {| start := 0; end_ := 3 |} ]%nat;
          pathMatch := None |}
  /\ scoreFile_nc (Some resource) ResourceAccessor "of"
     = {| fscore := 4 + BASENAME_SCORE_THRESHOLD;
          basenameMatch := Some [ {| start := 1; end_ := 2 |};
                                  {| start := 4; end_ := 5 |} ]%nat;
          pathMatch := None |}
  /\ scoreFile_nc (Some resource) ResourceAccessor "xyz123"
     = {| fscore := 39;
          basenameMatch := None;
          pathMatch := Some [ {| start := 1; end_ := 4 |};
                              {| start := 23; end_ := 26 |} ]%nat |}
  /\ scoreFile_nc (Some resource) ResourceAccessor "987" = NO_FILE_SCORE.
Proof. vm_compute. repeat split. Qed.

(** The tests "compareFilesByScore - identity", "- basename prefix",
    "- basename scores", "- path scores" and "- prefer shorter paths": the
    results of comparing A with B, B with C and A with C.  With a query
    taken from resource A the order is A, B, C; with one taken from
    resource B it is B, A, C; whatever [compareAnything] is. *)
Example compare_tests (compareAnything : string -> string -> string -> Z) :
  let A := "/some/path/fileA.txt" in
  let B := "/some/path/other/fileB.txt" in
  let C := "/unrelated/some/path/other/fileC.txt" in
  let cmp query a b :=
    compareFilesByScore_nc compareAnything a b ResourceAccessor query in
  (fun query => (cmp query A B, cmp query B C, cmp query A C))
    <$> [A; "fileA.txt"; "fileA"; "pathfileA";
         B; "fileB.txt"; "fileB"; "pathfileB"; "somepath"]
  = [(-1, -10, -1); (-1, -10, -1); (-1, -10, -1); (-1, -10, -1);
     (1, -1, -16); (1, -1, -16); (1, -1, -16); (1, -1, -16);
     (-6, -10, -16)].
Proof. vm_compute. reflexivity. Qed.
